(** * responsive-sketchpad: the stroke model, history, eraser and interpolator

    A shallow embedding of the [Sketchpad] class.

    Conventions of the embedding.
    - A JavaScript [number] is a rational ([Q]); every finite double is one.
      The definitions of the first part compute with exact rationals.  That
      is faithful for the state and the control flow: which strokes and
      points there are, in which order, and what becomes of them once a test
      has come out one way or the other.  What depends on the rounding of the
      arithmetic (which points pass the hit test, how many samples an arc
      gets, the coordinates of the samples) is stated over module [JS], which
      has the rounding operations of the source as a parameter and the
      arithmetic of doubles as an instance.  Division by zero, [NaN] and the
      infinities are outside the model: theorems about the value of a
      quotient carry the hypothesis that the divisor (a canvas dimension, the
      sampling interval) is positive.
    - An optional property ([points?], [size?], a [skipped] that an object
      literal does not mention) is an [option]; [None] is the absent property,
      which reads as [undefined].
    - An array is a [list] in index order; [push] appends at the end and [pop]
      removes the last element.
    - The rendering context, [redraw], the DOM cursor overlay and the
      [onDrawEnd] callback only paint or notify: they read the document and
      never write it, so they are left out of the state.
    - A method that can raise a [TypeError] returns the state reached at the
      point of the throw together with the completion. *)

From Stdlib Require Import QArith ZArith List String Bool Lia Qround Lqa.
Import ListNotations.
Open Scope Q_scope.

(** ** Arrays *)

Definition push {A : Type} (l : list A) (a : A) : list A := l ++ [a].

(** [Array.prototype.pop]: the last element (or [undefined]) and the array
    that remains. *)
Definition pop {A : Type} (l : list A) : option A * list A :=
  match rev l with
  | [] => (None, [])
  | a :: r => (Some a, rev r)
  end.

(** ** Completions *)

Inductive outcome (A : Type) : Type :=
| Ret (a : A)        (* normal completion *)
| TypeError          (* property access on [undefined] *)
| Hang.              (* a loop whose bound is [Infinity] *)
Arguments Ret {A} a.
Arguments TypeError {A}.
Arguments Hang {A}.

(** ** Points *)

Record PointI : Type := mkPoint { px : Q; py : Q; skipped : option bool }.

(** [new Point(x, y)]: the constructor defaults [skipped] to [false]. *)
Definition Point (x y : Q) : PointI := mkPoint x y (Some false).

(** The object literal [{ x, y }], which has no [skipped] property. *)
Definition xy (x y : Q) : PointI := mkPoint x y None.

(** Truthiness of [p.skipped]: [undefined] and [false] are falsy. *)
Definition is_skipped (p : PointI) : bool :=
  match skipped p with
  | Some true => true
  | _ => false
  end.

(** ** Line styles *)

Inductive CanvasLineCap : Type := cap_butt | cap_round | cap_square.
Inductive CanvasLineJoin : Type := join_round | join_bevel | join_miter.

Module LineOptionsI.
Record t : Type := mk {
  size : option Q;
  color : option string;
  cap : option CanvasLineCap;
  join : option CanvasLineJoin;
  miterLimit : option Q;
  isInterpolationDone : option bool }.
End LineOptionsI.

Module StrokeI.
Record t : Type := mk {
  points : option (list PointI);
  size : option Q;
  color : option string;
  cap : option CanvasLineCap;
  join : option CanvasLineJoin;
  miterLimit : option Q;
  isInterpolationDone : option bool }.
End StrokeI.

Module Stroke.
Record t : Type := mk {
  points : option (list PointI);
  width : option Q;
  color : option string;
  cap : option CanvasLineCap;
  join : option CanvasLineJoin;
  miterLimit : option Q;
  isInterpolationDone : option bool }.

Definition fromObj (s : StrokeI.t) : t :=
  mk (StrokeI.points s) (StrokeI.size s) (StrokeI.color s) (StrokeI.cap s)
     (StrokeI.join s) (StrokeI.miterLimit s) (StrokeI.isInterpolationDone s).

Definition toObj (s : t) : StrokeI.t :=
  StrokeI.mk (points s) (width s) (color s) (cap s) (join s) (miterLimit s)
             (isInterpolationDone s).

(** The same stroke with another point array. *)
Definition with_points (s : t) (ps : option (list PointI)) : t :=
  mk ps (width s) (color s) (cap s) (join s) (miterLimit s)
     (isInterpolationDone s).

(** [stroke.points || []] *)
Definition points_or_empty (s : t) : list PointI :=
  match points s with
  | Some ps => ps
  | None => []
  end.
End Stroke.

Definition same_style (a b : Stroke.t) : Prop :=
  Stroke.width a = Stroke.width b /\
  Stroke.color a = Stroke.color b /\
  Stroke.cap a = Stroke.cap b /\
  Stroke.join a = Stroke.join b /\
  Stroke.miterLimit a = Stroke.miterLimit b /\
  Stroke.isInterpolationDone a = Stroke.isInterpolationDone b.

(** ** The sketchpad *)

Record Sketchpad : Type := mkSketchpad {
  canvas_width : Q;
  canvas_height : Q;
  sketching : bool;
  isEraserActive : bool;
  _strokes : list Stroke.t;
  undoneStrokes : list Stroke.t;
  backgroundColor : option string;
  readOnly : bool;
  aspectRatio : Q;
  lineWidth : Q;
  lineColor : string;
  lineCap : CanvasLineCap;
  lineJoin : CanvasLineJoin;
  lineMiterLimit : Q;
  isInterpolationDone : bool;
  eraserSize : Q }.

Definition set_sketching (b : bool) (st : Sketchpad) : Sketchpad :=
  mkSketchpad (canvas_width st) (canvas_height st) b (isEraserActive st)
    (_strokes st) (undoneStrokes st) (backgroundColor st) (readOnly st)
    (aspectRatio st) (lineWidth st) (lineColor st) (lineCap st) (lineJoin st)
    (lineMiterLimit st) (isInterpolationDone st) (eraserSize st).

Definition set_strokes (l : list Stroke.t) (st : Sketchpad) : Sketchpad :=
  mkSketchpad (canvas_width st) (canvas_height st) (sketching st)
    (isEraserActive st) l (undoneStrokes st) (backgroundColor st) (readOnly st)
    (aspectRatio st) (lineWidth st) (lineColor st) (lineCap st) (lineJoin st)
    (lineMiterLimit st) (isInterpolationDone st) (eraserSize st).

Definition set_undoneStrokes (l : list Stroke.t) (st : Sketchpad) : Sketchpad :=
  mkSketchpad (canvas_width st) (canvas_height st) (sketching st)
    (isEraserActive st) (_strokes st) l (backgroundColor st) (readOnly st)
    (aspectRatio st) (lineWidth st) (lineColor st) (lineCap st) (lineJoin st)
    (lineMiterLimit st) (isInterpolationDone st) (eraserSize st).

Definition set_backgroundColor (c : string) (st : Sketchpad) : Sketchpad :=
  mkSketchpad (canvas_width st) (canvas_height st) (sketching st)
    (isEraserActive st) (_strokes st) (undoneStrokes st) (Some c) (readOnly st)
    (aspectRatio st) (lineWidth st) (lineColor st) (lineCap st) (lineJoin st)
    (lineMiterLimit st) (isInterpolationDone st) (eraserSize st).

Definition set_aspectRatio (r : Q) (st : Sketchpad) : Sketchpad :=
  mkSketchpad (canvas_width st) (canvas_height st) (sketching st)
    (isEraserActive st) (_strokes st) (undoneStrokes st) (backgroundColor st)
    (readOnly st) r (lineWidth st) (lineColor st) (lineCap st) (lineJoin st)
    (lineMiterLimit st) (isInterpolationDone st) (eraserSize st).

Definition set_lineWidth (w : Q) (st : Sketchpad) : Sketchpad :=
  mkSketchpad (canvas_width st) (canvas_height st) (sketching st)
    (isEraserActive st) (_strokes st) (undoneStrokes st) (backgroundColor st)
    (readOnly st) (aspectRatio st) w (lineColor st) (lineCap st) (lineJoin st)
    (lineMiterLimit st) (isInterpolationDone st) (eraserSize st).

Definition set_lineCap (c : CanvasLineCap) (st : Sketchpad) : Sketchpad :=
  mkSketchpad (canvas_width st) (canvas_height st) (sketching st)
    (isEraserActive st) (_strokes st) (undoneStrokes st) (backgroundColor st)
    (readOnly st) (aspectRatio st) (lineWidth st) (lineColor st) c (lineJoin st)
    (lineMiterLimit st) (isInterpolationDone st) (eraserSize st).

Definition set_lineJoin (j : CanvasLineJoin) (st : Sketchpad) : Sketchpad :=
  mkSketchpad (canvas_width st) (canvas_height st) (sketching st)
    (isEraserActive st) (_strokes st) (undoneStrokes st) (backgroundColor st)
    (readOnly st) (aspectRatio st) (lineWidth st) (lineColor st) (lineCap st) j
    (lineMiterLimit st) (isInterpolationDone st) (eraserSize st).

Definition set_lineMiterLimit (m : Q) (st : Sketchpad) : Sketchpad :=
  mkSketchpad (canvas_width st) (canvas_height st) (sketching st)
    (isEraserActive st) (_strokes st) (undoneStrokes st) (backgroundColor st)
    (readOnly st) (aspectRatio st) (lineWidth st) (lineColor st) (lineCap st)
    (lineJoin st) m (isInterpolationDone st) (eraserSize st).

Definition set_isInterpolationDone (b : bool) (st : Sketchpad) : Sketchpad :=
  mkSketchpad (canvas_width st) (canvas_height st) (sketching st)
    (isEraserActive st) (_strokes st) (undoneStrokes st) (backgroundColor st)
    (readOnly st) (aspectRatio st) (lineWidth st) (lineColor st) (lineCap st)
    (lineJoin st) (lineMiterLimit st) b (eraserSize st).

(** ** Options *)

Module DataI.
Record t : Type := mk {
  aspectRatio : option Q;
  strokes : option (list StrokeI.t) }.
End DataI.

Module SketchpadOptionsI.
Record t : Type := mk {
  backgroundColor : option string;
  readOnly : option bool;
  width : option Q;
  height : option Q;
  aspectRatio : option Q;
  line : option LineOptionsI.t;
  data : option DataI.t }.

(** The object literal [{ line: lineOpts }]. *)
Definition of_line (l : LineOptionsI.t) : t :=
  mk None None None None None (Some l) None.
End SketchpadOptionsI.

(** Truthiness of an optional number: [undefined] and [0] are falsy. *)
Definition truthy_number (o : option Q) : option Q :=
  match o with
  | Some q => if Qeq_bool q 0 then None else Some q
  | None => None
  end.

(** Truthiness of an optional string: [undefined] and the empty string are
    falsy. *)
Definition truthy_string (o : option string) : option string :=
  match o with
  | Some s => if String.eqb s EmptyString then None else Some s
  | None => None
  end.

(** Truthiness of an optional boolean. *)
Definition truthy_bool (o : option bool) : option bool :=
  match o with
  | Some true => Some true
  | _ => None
  end.

(** [if (v) { this.field = v }] *)
Definition assign_if {A : Type} (o : option A) (set : A -> Sketchpad -> Sketchpad)
    (st : Sketchpad) : Sketchpad :=
  match o with
  | Some v => set v st
  | None => st
  end.

(** [opts.line?.field] *)
Definition line_field {A : Type} (f : LineOptionsI.t -> option A)
    (opts : SketchpadOptionsI.t) : option A :=
  match SketchpadOptionsI.line opts with
  | Some l => f l
  | None => None
  end.

(** [setOptions]: each option is stored when it is truthy.  A
    [CanvasLineCap] or [CanvasLineJoin] is a non-empty string, hence truthy
    whenever present.  ([onDrawEnd] is not part of the state.) *)
Definition setOptions (opts : SketchpadOptionsI.t) (st : Sketchpad) : Sketchpad :=
  let st := assign_if (truthy_string (SketchpadOptionsI.backgroundColor opts))
              set_backgroundColor st in
  let st := assign_if (truthy_number (line_field LineOptionsI.size opts))
              set_lineWidth st in
  let st := assign_if (truthy_bool (line_field LineOptionsI.isInterpolationDone opts))
              set_isInterpolationDone st in
  let st := assign_if (line_field LineOptionsI.cap opts) set_lineCap st in
  let st := assign_if (line_field LineOptionsI.join opts) set_lineJoin st in
  let st := assign_if (truthy_number (line_field LineOptionsI.miterLimit opts))
              set_lineMiterLimit st in
  let st := assign_if (truthy_number (SketchpadOptionsI.aspectRatio opts))
              set_aspectRatio st in
  let st := match SketchpadOptionsI.data opts with
            | Some d =>
                set_strokes
                  (match DataI.strokes d with
                   | Some l => map Stroke.fromObj l
                   | None => []
                   end) st
            | None => st
            end in
  st.

(** ** Coordinates *)

Definition getPointRelativeToCanvas (point : PointI) (st : Sketchpad) : PointI :=
  mkPoint (px point / canvas_width st) (py point / canvas_height st) (Some false).

Definition getLineWidthRelativeToCanvas (size : Q) (st : Sketchpad) : Q :=
  size / canvas_width st.

Definition normalizePoint (p : PointI) (st : Sketchpad) : PointI :=
  Point (px p * canvas_width st) (py p * canvas_height st).

Definition midPoint (p1 p2 : PointI) : PointI :=
  Point ((px p1 + px p2) / 2) ((py p1 + py p2) / 2).

Definition normalizeLineWidth (width : Q) (st : Sketchpad) : Q :=
  width * canvas_width st.

(** ** History *)

Definition undo (st : Sketchpad) : Sketchpad :=
  match pop (_strokes st) with
  | (None, _) => st
  | (Some s, rest) =>
      set_undoneStrokes (push (undoneStrokes st) s) (set_strokes rest st)
  end.

Definition redo (st : Sketchpad) : Sketchpad :=
  match pop (undoneStrokes st) with
  | (None, _) => st
  | (Some s, rest) =>
      set_strokes (push (_strokes st) s) (set_undoneStrokes rest st)
  end.

Definition clear (st : Sketchpad) : Sketchpad :=
  set_strokes [] (set_undoneStrokes [] st).

Definition pushStroke (points : list PointI) (st : Sketchpad) : Sketchpad :=
  set_strokes
    (push (_strokes st)
       (Stroke.fromObj
          (StrokeI.mk (Some points)
             (Some (getLineWidthRelativeToCanvas (lineWidth st) st))
             (Some (lineColor st))
             (Some (lineCap st))
             (Some (lineJoin st))
             (Some (lineMiterLimit st))
             (Some (isInterpolationDone st)))))
    st.

Definition drawLine (start end_ : PointI) (lineOpts : LineOptionsI.t)
    (st : Sketchpad) : Sketchpad :=
  let st := setOptions (SketchpadOptionsI.of_line lineOpts) st in
  let start := getPointRelativeToCanvas (Point (px start) (py start)) st in
  let end_ := getPointRelativeToCanvas (Point (px end_) (py end_)) st in
  pushStroke [start; end_] st.

(** ** Eraser engine *)

(** The body of the inner [forEach] of [erasePoints]: the point is marked when
    its squared distance to the cursor is at most the squared radius. *)
Definition erasePoint (cursor : PointI) (areaOfEraser : Q) (point : PointI) : PointI :=
  let dx := px point - px cursor in
  let dy := py point - py cursor in
  let distanceSquared := dx * dx + dy * dy in
  if Qle_bool distanceSquared areaOfEraser
  then mkPoint (px point) (py point) (Some true)
  else point.

(** The outer [forEach]: strokes are visited in order and their points are
    marked in place; a stroke without a [points] array stops the pass with a
    [TypeError], the strokes before it already marked. *)
Fixpoint eraseStrokes (cursor : PointI) (areaOfEraser : Q) (l : list Stroke.t)
    : list Stroke.t * outcome unit :=
  match l with
  | [] => ([], Ret tt)
  | stroke :: tl =>
      match Stroke.points stroke with
      | None => (stroke :: tl, TypeError)
      | Some ps =>
          let (tl', o) := eraseStrokes cursor areaOfEraser tl in
          (Stroke.with_points stroke (Some (map (erasePoint cursor areaOfEraser) ps)) :: tl', o)
      end
  end.

(** The eraser radius in normalized units. *)
Definition eraserRadius (st : Sketchpad) : Q :=
  getLineWidthRelativeToCanvas (eraserSize st) st / 2.

Definition erasePoints (cursor : PointI) (st : Sketchpad) : Sketchpad * outcome unit :=
  let eraserSize := eraserRadius st in
  let areaOfEraser := eraserSize * eraserSize in
  let (l, o) := eraseStrokes cursor areaOfEraser (_strokes st) in
  (set_strokes l st, o).

(** [JSON.parse(JSON.stringify(obj))] on the value model: numbers, strings,
    booleans and arrays come back as they were, an absent property stays
    absent, and the [toObj] closure (not part of the value) is dropped. *)
Definition deepClone {A : Type} (obj : A) : A := obj.

(** The inner loop of [createNewStrokesAfterErasing] over the points of one
    stroke, from index [j] on: [cur] is [newStroke.points], the result lists
    the clones pushed onto [newStrokes]. *)
Fixpoint resegment (newStroke : Stroke.t) (pts cur : list PointI) : list Stroke.t :=
  match pts with
  | [] => []
  | p :: rest =>
      if is_skipped p then
        if (0 <? List.length cur)%nat
        then deepClone (Stroke.with_points newStroke (Some cur)) :: resegment newStroke rest []
        else resegment newStroke rest cur
      else
        let cur := push cur p in
        (match rest with
         | [] => [deepClone (Stroke.with_points newStroke (Some cur))]
         | _ :: _ => []
         end) ++ resegment newStroke rest cur
  end.

(** The fragments one stroke contributes. *)
Definition fragments (previous : Stroke.t) : list Stroke.t :=
  let points := Stroke.points_or_empty previous in
  let newStroke :=
    Stroke.mk (Some []) (Stroke.width previous) (Stroke.color previous)
      (Stroke.cap previous) (Stroke.join previous) (Stroke.miterLimit previous)
      (Stroke.isInterpolationDone previous) in
  resegment newStroke points [].

Definition createNewStrokesAfterErasing (st : Sketchpad) : Sketchpad :=
  let previousStrokes := deepClone (_strokes st) in
  set_strokes (flat_map fragments previousStrokes) st.

(** ** Curve interpolator *)

(** [Math.hypot(dx, dy)] is the non-negative square root of [dx^2 + dy^2]; the
    embedding keeps the square, which is rational. *)
Definition hypot_sq (dx dy : Q) : Q := dx * dx + dy * dy.

(** [Math.ceil(Math.sqrt(s) / k)] for [0 < k], computed exactly: with
    [s = a/b] and [k = c/d], [sqrt s / k = sqrt (a*b*d^2) / (b*c)]. *)
Definition ceil_sqrt_div (s k : Q) : Z :=
  let X := (Qnum s * Z.pos (Qden s) * (Z.pos (Qden k) * Z.pos (Qden k)))%Z in
  let Y := (Z.pos (Qden s) * Qnum k)%Z in
  (- ((- Z.sqrt_up X) / Y))%Z.

(** [Math.max(1, Math.ceil(distance / interval))] as the bound of the sampling
    loop, [distance] being the root of [distance_sq].  A negative interval
    makes the quotient non-positive; a zero interval makes it [NaN] (no
    iteration, since [pt < NaN] is false) or [Infinity] (no exit). *)
Definition numIntervals (distance_sq interval : Q) : outcome nat :=
  if negb (Qle_bool interval 0) then
    Ret (Z.to_nat (Z.max 1 (ceil_sqrt_div distance_sq interval)))
  else if negb (Qle_bool 0 interval) then Ret 1%nat
  else if Qeq_bool distance_sq 0 then Ret 0%nat
  else Hang.

(** The quadratic Bezier polynomial on one coordinate. *)
Definition bezier (t o c d : Q) : Q :=
  (1 - t) ^ 2 * o + 2 * (1 - t) * t * c + t ^ 2 * d.

Definition interpolateQuadraticCurve (originPt controlPt destinationPt : PointI)
    (numPoints : nat) : list PointI :=
  map (fun pt : nat =>
         let t := inject_Z (Z.of_nat pt) / inject_Z (Z.of_nat numPoints) in
         let x := bezier t (px originPt) (px controlPt) (px destinationPt) in
         let y := bezier t (py originPt) (py controlPt) (py destinationPt) in
         xy x y)
      (seq 0 numPoints).

Definition obind {A B : Type} (m : outcome A) (f : A -> outcome B) : outcome B :=
  match m with
  | Ret a => f a
  | TypeError => TypeError
  | Hang => Hang
  end.

Notation "x <- m ;; k" := (obind m (fun x => k))
  (at level 61, m at next level, right associativity).

(** An element read by index; out of range it is [undefined], and the
    property access that follows throws. *)
Definition at_index {A : Type} (l : list A) (i : nat) : outcome A :=
  match nth_error l i with
  | Some a => Ret a
  | None => TypeError
  end.

Section Interpolation.
(** [this.canvas.width] and [this.canvas.height] *)
Variables (cw ch : Q).

(** The callback of [interpolatedPoints.forEach]: back to normalized
    coordinates, with an explicit [skipped: false]. *)
Definition renormalize (point : PointI) : PointI :=
  mkPoint (px point / cw) (py point / ch) (Some false).

(** One arc: sample count from the chord, samples, conversion. *)
Definition arcPoints (originPt controlPt destinationPt : PointI) (interval : Q)
    : outcome (list PointI) :=
  let distance_sq :=
    hypot_sq (px destinationPt - px originPt) (py destinationPt - py originPt) in
  numIntervals <- numIntervals distance_sq interval ;;
  Ret (map renormalize
         (interpolateQuadraticCurve originPt controlPt destinationPt numIntervals)).

(** One iteration of the [for (let j = 1; ...)] loop; the loop state is
    [destinationPt] and [newStroke.points]. *)
Definition arcStep (transformedPoints : list PointI) (interval : Q)
    (state : outcome (PointI * list PointI)) (j : nat)
    : outcome (PointI * list PointI) :=
  s <- state ;;
  let originPt := fst s in
  controlPt <- at_index transformedPoints j ;;
  next <- at_index transformedPoints (j + 1) ;;
  let destinationPt := midPoint controlPt next in
  interpolatedPoints <- arcPoints originPt controlPt destinationPt interval ;;
  Ret (destinationPt, snd s ++ interpolatedPoints).

(** The callback of [points.map]: to pixel coordinates. *)
Definition toPixels (point : PointI) : PointI :=
  mkPoint (px point * cw) (py point * ch) (Some false).

Definition interpolateExistingShapePaths (stroke : Stroke.t) (interval : Q)
    : outcome Stroke.t :=
  let points := Stroke.points_or_empty stroke in
  let transformedPoints := map toPixels points in
  first <- at_index transformedPoints 0 ;;
  let out := [xy (px first / cw) (py first / ch)] in
  let originPt := first in
  let controlPt := originPt in
  init <-
    (if (1 <? List.length transformedPoints)%nat then
       second <- at_index transformedPoints 1 ;;
       let destinationPt := midPoint first second in
       interpolatedPoints <- arcPoints originPt controlPt destinationPt interval ;;
       Ret (destinationPt, out ++ interpolatedPoints)
     else Ret (originPt, out)) ;;
  final <- fold_left (arcStep transformedPoints interval)
             (seq 1 (List.length transformedPoints - 1 - 1)) (Ret init) ;;
  Ret (Stroke.mk (Some (snd final)) (Stroke.width stroke) (Stroke.color stroke)
         (Stroke.cap stroke) (Stroke.join stroke) (Stroke.miterLimit stroke)
         (Some true)).
End Interpolation.

Definition last_stroke (st : Sketchpad) : option Stroke.t := fst (pop (_strokes st)).

(** [createNewStrokesAfterInterpolation]: the last stroke is popped before
    the interpolation runs, so a throw leaves the list one stroke shorter. *)
Definition createNewStrokesAfterInterpolation (stroke : option Stroke.t) (interval : Q)
    (st : Sketchpad) : Sketchpad * outcome unit :=
  let st := set_strokes (snd (pop (_strokes st))) st in
  match stroke with
  | None => (st, TypeError)
  | Some stroke =>
      match interpolateExistingShapePaths (canvas_width st) (canvas_height st)
              stroke interval with
      | Ret newStroke => (set_strokes (push (_strokes st) newStroke) st, Ret tt)
      | TypeError => (st, TypeError)
      | Hang => (st, Hang)
      end
  end.

(** ** Pointer events *)

(** A pointer event, with positions already taken relative to the bounding
    rectangle of the canvas ([clientX - rect.left], [clientY - rect.top]).  A
    touch event carries its list of touches, which is empty on [touchend]. *)
Inductive Event : Type :=
| MouseEvent (x y : Q)
| TouchEvent (touches : list (Q * Q)).

Definition isTouchEvent (e : Event) : bool :=
  match e with
  | MouseEvent _ _ => false
  | TouchEvent _ => true
  end.

Definition getCursorRelativeToCanvas (e : Event) (st : Sketchpad) : outcome PointI :=
  point <-
    (match e with
     | TouchEvent touches =>
         t <- at_index touches 0 ;;
         Ret (Point (fst t) (snd t))
     | MouseEvent x y => Ret (Point x y)
     end) ;;
  Ret (Point (px point / canvas_width st) (py point / canvas_height st)).

Definition pushPoint (point : PointI) (st : Sketchpad) : Sketchpad * outcome unit :=
  match pop (_strokes st) with
  | (None, _) => (st, TypeError)
  | (Some stroke, rest) =>
      match Stroke.points stroke with
      | Some ps =>
          (set_strokes (push rest (Stroke.with_points stroke (Some (push ps point)))) st,
           Ret tt)
      | None => (st, Ret tt)
      end
  end.

(** Sequencing of state transformers that may throw. *)
Definition andThen (r : Sketchpad * outcome unit)
    (k : Sketchpad -> Sketchpad * outcome unit) : Sketchpad * outcome unit :=
  match snd r with
  | Ret _ => k (fst r)
  | TypeError => (fst r, TypeError)
  | Hang => (fst r, Hang)
  end.

(** Use of a value whose computation may throw, in a given state. *)
Definition withValue {A : Type} (o : outcome A) (st : Sketchpad)
    (k : A -> Sketchpad * outcome unit) : Sketchpad * outcome unit :=
  match o with
  | Ret a => k a
  | TypeError => (st, TypeError)
  | Hang => (st, Hang)
  end.

Definition startStrokeHandler (e : Event) (st : Sketchpad) : Sketchpad * outcome unit :=
  if readOnly st then (st, Ret tt)
  else
    let st := set_sketching true st in
    withValue (getCursorRelativeToCanvas e st) st (fun point =>
      if isEraserActive st then erasePoints point st
      else (pushStroke [point] st, Ret tt)).

Definition drawStrokeHandler (e : Event) (st : Sketchpad) : Sketchpad * outcome unit :=
  withValue (getCursorRelativeToCanvas e st) st (fun point =>
    if negb (sketching st) then (st, Ret tt)
    else if isEraserActive st then erasePoints point st
    else pushPoint point st).

Definition endStrokeHandler (e : Event) (st : Sketchpad) : Sketchpad * outcome unit :=
  if negb (sketching st) then (st, Ret tt)
  else
    let st := set_sketching false st in
    if isTouchEvent e then (st, Ret tt)
    else
      withValue (getCursorRelativeToCanvas e st) st (fun point =>
        andThen
          (if isEraserActive st then erasePoints point st
           else
             andThen (pushPoint point st) (fun st =>
               createNewStrokesAfterInterpolation (last_stroke st) 2 st))
          (fun st => (createNewStrokesAfterErasing st, Ret tt))).

(** The listeners installed by [listen]. *)
Inductive EventName : Type :=
| mousedown | touchstart | mousemove | touchmove | mouseup | mouseleave | touchend.

Definition dispatch (name : EventName) (e : Event) (st : Sketchpad)
    : Sketchpad * outcome unit :=
  match name with
  | mousedown | touchstart => startStrokeHandler e st
  | mousemove | touchmove => drawStrokeHandler e st
  | mouseup | mouseleave | touchend => endStrokeHandler e st
  end.

(** ** Predicates on documents *)

(** Every stroke of the list has a [points] array. *)
Definition has_points (s : Stroke.t) : Prop := Stroke.points s <> None.

(** No point of the stroke list is marked. *)
Definition no_skipped (l : list Stroke.t) : Prop :=
  Forall (fun s => Forall (fun p => is_skipped p = false) (Stroke.points_or_empty s)) l.

(** Some point of the stroke list is marked. *)
Definition some_skipped (l : list Stroke.t) : bool :=
  existsb (fun s => existsb is_skipped (Stroke.points_or_empty s)) l.

(** [loadJSON]: the stroke list is rebuilt from the record; a missing
    [strokes] property gives the empty document. *)
Definition loadJSON (data : DataI.t) (st : Sketchpad) : Sketchpad :=
  let strokeObjs := match DataI.strokes data with Some l => l | None => [] end in
  set_strokes (map Stroke.fromObj strokeObjs) st.

(** ** The smoothing construction, as the design describes it

    These definitions follow the description of the interpolator (arcs between
    midpoints, the raw point as control point, [max(1, ceil(L/k))] samples per
    arc); the theorems below compare them with the loop of the source. *)

(** An arc: origin, control point, destination. *)
Definition arc : Type := (PointI * PointI * PointI)%type.

Definition arc_origin (a : arc) : PointI := fst (fst a).
Definition arc_control (a : arc) : PointI := snd (fst a).
Definition arc_destination (a : arc) : PointI := snd a.

(** The arcs around the raw points [l = P_j, P_(j+1), ...], [prev] being
    [P_(j-1)]: from the midpoint of [P_(j-1) P_j] to the midpoint of
    [P_j P_(j+1)], with [P_j] as control point. *)
Fixpoint smooth_arcs (prev : PointI) (l : list PointI) : list arc :=
  match l with
  | pj :: ((pj1 :: _) as tl) =>
      (midPoint prev pj, pj, midPoint pj pj1) :: smooth_arcs pj tl
  | _ => []
  end.

(** All arcs of a stroke: the first one starts at the first raw point itself,
    which is also its control point. *)
Definition arcs (raw : list PointI) : list arc :=
  match raw with
  | p0 :: ((p1 :: _) as tl) => (p0, p0, midPoint p0 p1) :: smooth_arcs p0 tl
  | _ => []
  end.

(** The square of the chord length of an arc. *)
Definition chord_sq (a : arc) : Q :=
  hypot_sq (px (arc_destination a) - px (arc_origin a))
           (py (arc_destination a) - py (arc_origin a)).

(** [n = max(1, ceil(L / k))] for a length [L >= 0] given by its square [s]
    and [0 < k], without square roots: [n] is at least 1, [n * k] reaches [L],
    and [n] is the least such number above 1. *)
Definition is_max1_ceil (s k : Q) (n : nat) : Prop :=
  (1 <= n)%nat /\
  s <= (inject_Z (Z.of_nat n) * k) ^ 2 /\
  ((1 < n)%nat -> (inject_Z (Z.of_nat (n - 1)) * k) ^ 2 < s).

(** The point of an arc at parameter [t]. *)
Definition bezier_point (a : arc) (t : Q) : PointI :=
  xy (bezier t (px (arc_origin a)) (px (arc_control a)) (px (arc_destination a)))
     (bezier t (py (arc_origin a)) (py (arc_control a)) (py (arc_destination a))).

(** The number of samples the source takes on an arc, for a positive
    interval. *)
Definition sampleCount (a : arc) (k : Q) : nat :=
  Z.to_nat (Z.max 1 (ceil_sqrt_div (chord_sq a) k)).

(** The samples of an arc in pixel space: parameters [i / n], [0 <= i < n]. *)
Definition arcSamples (a : arc) (k : Q) : list PointI :=
  map (fun i : nat =>
         bezier_point a (inject_Z (Z.of_nat i) / inject_Z (Z.of_nat (sampleCount a k))))
      (seq 0 (sampleCount a k)).

(** ** Marking, as a map over the document *)

Definition markStroke (cursor : PointI) (areaOfEraser : Q) (s : Stroke.t) : Stroke.t :=
  Stroke.with_points s
    (option_map (map (erasePoint cursor areaOfEraser)) (Stroke.points s)).

(** ** Sample documents *)

Definition sampleStroke (ps : list PointI) : Stroke.t :=
  Stroke.mk (Some ps) (Some (1 # 20)) (Some "#000"%string) (Some cap_round)
    (Some join_round) (Some 10) (Some true).

Definition emptyPad : Sketchpad :=
  mkSketchpad 100 100 false false [] [] None false 1 5 "#000"%string
    cap_round join_round 10 false 20.

Definition noLineOptions : LineOptionsI.t :=
  LineOptionsI.mk None None None None None None.

(** A document with one stroke of two points, the pad being idle. *)
Definition oneStrokePad : Sketchpad :=
  set_strokes [sampleStroke [Point 0 0; Point (1 # 2) (1 # 2)]] emptyPad.

(** The same document on a pad in eraser mode, with the default eraser of 20
    pixels (radius 1/10 in normalized units) and with an eraser of size 0. *)
Definition eraserPad : Sketchpad :=
  mkSketchpad 100 100 false true
    [sampleStroke [Point 0 0; Point (1 # 2) (1 # 2)]] [] None false 1 5
    "#000"%string cap_round join_round 10 false 20.


(** [v || d] on an optional value already filtered for truthiness. *)
Definition or_default {A : Type} (o : option A) (d : A) : A :=
  match o with
  | Some v => v
  | None => d
  end.


(** Five collinear points, the middle one marked. *)
Definition fivePoints : list PointI :=
  [Point 0 0; Point (1 # 4) (1 # 4); mkPoint (1 # 2) (1 # 2) (Some true);
   Point (3 # 4) (3 # 4); Point 1 1].

(** What an arc contributes to the output stroke: its samples, back in
    normalized coordinates. *)
Definition arcOutput (cw ch k : Q) (a : arc) : list PointI :=
  map (renormalize cw ch) (arcSamples a k).

(** A raw stroke from (0, 0) to (50, 50) on a 100 x 100 canvas, and a raw
    stroke of a single point. *)
Definition twoPointStroke : Stroke.t :=
  Stroke.mk (Some [Point 0 0; Point (1 # 2) (1 # 2)]) (Some (1 # 20))
    (Some "#000"%string) (Some cap_round) (Some join_round) (Some 10) (Some false).

Definition onePointStroke : Stroke.t :=
  Stroke.mk (Some [Point (1 # 4) (3 # 4)]) (Some (1 # 20))
    (Some "#000"%string) (Some cap_round) (Some join_round) (Some 10) (Some false).

(** ** Serialization *)

(** The [strokes] getter: each stroke as a plain record, [width] under the
    name [size]. *)
Definition strokes (st : Sketchpad) : list StrokeI.t :=
  map (fun stroke =>
         StrokeI.mk (Stroke.points stroke) (Stroke.width stroke)
           (Stroke.color stroke) (Stroke.cap stroke) (Stroke.join stroke)
           (Stroke.miterLimit stroke) (Stroke.isInterpolationDone stroke))
      (_strokes st).

Definition toJSON (st : Sketchpad) : DataI.t :=
  DataI.mk (Some (canvas_width st / canvas_height st)) (Some (strokes st)).

(** ** Setters *)

Definition set_isEraserActive (b : bool) (st : Sketchpad) : Sketchpad :=
  mkSketchpad (canvas_width st) (canvas_height st) (sketching st) b
    (_strokes st) (undoneStrokes st) (backgroundColor st) (readOnly st)
    (aspectRatio st) (lineWidth st) (lineColor st) (lineCap st) (lineJoin st)
    (lineMiterLimit st) (isInterpolationDone st) (eraserSize st).

Definition set_readOnly (b : bool) (st : Sketchpad) : Sketchpad :=
  mkSketchpad (canvas_width st) (canvas_height st) (sketching st)
    (isEraserActive st) (_strokes st) (undoneStrokes st) (backgroundColor st) b
    (aspectRatio st) (lineWidth st) (lineColor st) (lineCap st) (lineJoin st)
    (lineMiterLimit st) (isInterpolationDone st) (eraserSize st).

Definition set_lineColor (c : string) (st : Sketchpad) : Sketchpad :=
  mkSketchpad (canvas_width st) (canvas_height st) (sketching st)
    (isEraserActive st) (_strokes st) (undoneStrokes st) (backgroundColor st)
    (readOnly st) (aspectRatio st) (lineWidth st) c (lineCap st) (lineJoin st)
    (lineMiterLimit st) (isInterpolationDone st) (eraserSize st).

Definition set_eraserSize (e : Q) (st : Sketchpad) : Sketchpad :=
  mkSketchpad (canvas_width st) (canvas_height st) (sketching st)
    (isEraserActive st) (_strokes st) (undoneStrokes st) (backgroundColor st)
    (readOnly st) (aspectRatio st) (lineWidth st) (lineColor st) (lineCap st)
    (lineJoin st) (lineMiterLimit st) (isInterpolationDone st) e.

Definition set_canvas (w h : Q) (st : Sketchpad) : Sketchpad :=
  mkSketchpad w h (sketching st)
    (isEraserActive st) (_strokes st) (undoneStrokes st) (backgroundColor st)
    (readOnly st) (aspectRatio st) (lineWidth st) (lineColor st) (lineCap st)
    (lineJoin st) (lineMiterLimit st) (isInterpolationDone st) (eraserSize st).

Definition setLineWidth (width : Q) (st : Sketchpad) : Sketchpad :=
  set_lineWidth width st.

Definition setLineSize (size : Q) (st : Sketchpad) : Sketchpad :=
  set_lineWidth size st.

Definition setLineColor (color : string) (st : Sketchpad) : Sketchpad :=
  set_lineColor color st.

Definition setReadOnly (b : bool) (st : Sketchpad) : Sketchpad :=
  set_readOnly b st.

(** [setEraserSize]; the indicator it updates is a DOM element. *)
Definition setEraserSize (size : Q) (st : Sketchpad) : Sketchpad :=
  set_eraserSize size st.

Definition toggleEraserMode (st : Sketchpad) : Sketchpad :=
  set_isEraserActive (negb (isEraserActive st)) st.

(** ** Canvas size *)

Section Canvas.
(** What [canvas.width] and [canvas.height] read after
    [setAttribute('width', v.toString())] and
    [setAttribute('height', v.toString())]: the reflection of the attribute
    is the browser's, not this class's, and is a parameter here. *)
Variables (reflectWidth reflectHeight : Q -> Q).

Definition setCanvasSize (width height : Q) (st : Sketchpad) : Sketchpad :=
  set_canvas (reflectWidth width) (reflectHeight height) st.

Definition getCanvasSize (st : Sketchpad) : Q * Q :=
  (canvas_width st, canvas_height st).

End Canvas.

(** ** Sequences of pointer events *)

(** The pad after one event; a throw inside a handler ends that handler and
    leaves the pad as it was at the throw. *)
Definition step (ev : EventName * Event) (st : Sketchpad) : Sketchpad :=
  fst (dispatch (fst ev) (snd ev) st).

Definition run (evs : list (EventName * Event)) (st : Sketchpad) : Sketchpad :=
  fold_left (fun s ev => step ev s) evs st.

(** No handler of the sequence throws. *)
Fixpoint run_ok (evs : list (EventName * Event)) (st : Sketchpad) : Prop :=
  match evs with
  | [] => True
  | ev :: rest =>
      snd (dispatch (fst ev) (snd ev) st) = Ret tt /\ run_ok rest (step ev st)
  end.

(** A mouse event, under any of the mouse listeners. *)
Definition is_mouse (ev : EventName * Event) : Prop :=
  match ev with
  | (mousedown, MouseEvent _ _) | (mousemove, MouseEvent _ _)
  | (mouseup, MouseEvent _ _) | (mouseleave, MouseEvent _ _) => True
  | _ => False
  end.

(** ** Well-formed documents *)

(** The stroke has a point array with at least one point. *)
Definition nonempty_stroke (s : Stroke.t) : Prop :=
  exists p ps, Stroke.points s = Some (p :: ps).

(** Every stroke of the document and of the undone stack has points, and a
    drawing gesture in progress has its stroke. *)
Definition well_formed (st : Sketchpad) : Prop :=
  Forall nonempty_stroke (_strokes st) /\
  (sketching st = true -> isEraserActive st = false -> _strokes st <> []).

(** The point arrays of a stroke list, laid end to end. *)
Definition all_points (l : list Stroke.t) : list PointI :=
  flat_map Stroke.points_or_empty l.

Definition unmarked (p : PointI) : bool := negb (is_skipped p).

(** [n] applications of an operation. *)
Fixpoint iterate {A : Type} (n : nat) (f : A -> A) (a : A) : A :=
  match n with
  | O => a
  | S n => iterate n f (f a)
  end.

(** A state transformer that may throw commutes with [setReadOnly b]. *)
Definition commutes_readOnly (b : bool)
    (f : Sketchpad -> Sketchpad * outcome unit) : Prop :=
  forall st, f (set_readOnly b st) = (set_readOnly b (fst (f st)), snd (f st)).

(** ** Gestures *)

(** The position an event reports, relative to the canvas rectangle: the
    mouse position or the first touch. *)
Definition position (e : Event) : Q * Q :=
  match e with
  | MouseEvent x y => (x, y)
  | TouchEvent (t :: _) => t
  | TouchEvent [] => (0, 0)
  end.

(** The event has a position: it is not a touch event without touches. *)
Definition has_position (e : Event) : Prop :=
  match e with
  | TouchEvent [] => False
  | _ => True
  end.

(** The point recorded for an event. *)
Definition recorded (st : Sketchpad) (e : Event) : PointI :=
  Point (fst (position e) / canvas_width st) (snd (position e) / canvas_height st).

(** The stroke [pushStroke] makes of the given points. *)
Definition newStroke (points : list PointI) (st : Sketchpad) : Stroke.t :=
  Stroke.mk (Some points) (Some (lineWidth st / canvas_width st))
    (Some (lineColor st)) (Some (lineCap st)) (Some (lineJoin st))
    (Some (lineMiterLimit st)) (Some (isInterpolationDone st)).

(** The number of points of a stroke. *)
Definition point_count (s : Stroke.t) : nat :=
  List.length (Stroke.points_or_empty s).

(** A pointer-down event with a position. *)
Definition is_down (ev : EventName * Event) : Prop :=
  (fst ev = mousedown \/ fst ev = touchstart) /\ has_position (snd ev).

(** A pointer-move event with a position. *)
Definition is_move (ev : EventName * Event) : Prop :=
  (fst ev = mousemove \/ fst ev = touchmove) /\ has_position (snd ev).

(** ** Rendering

    The calls made on the 2D context, in order. *)

Inductive CanvasCall : Type :=
| ctx_clearRect (x y w h : Q)
| ctx_fillStyle (c : string)
| ctx_fillRect (x y w h : Q)
| ctx_beginPath
| ctx_moveTo (x y : Q)
| ctx_lineTo (x y : Q)
| ctx_quadraticCurveTo (cpx cpy x y : Q)
| ctx_closePath
| ctx_strokeStyle (c : string)
| ctx_lineWidth (w : Q)
| ctx_lineJoin (j : CanvasLineJoin)
| ctx_lineCap (c : CanvasLineCap)
| ctx_miterLimit (m : Q)
| ctx_stroke.

Definition clearCanvas (st : Sketchpad) : list CanvasCall :=
  ctx_clearRect 0 0 (canvas_width st) (canvas_height st) ::
  match truthy_string (backgroundColor st) with
  | Some c => [ctx_fillStyle c; ctx_fillRect 0 0 (canvas_width st) (canvas_height st)]
  | None => []
  end.

(** The assignments of [strokeStyle], [lineWidth], [lineJoin], [lineCap] and
    [miterLimit], each made only when the stroke's value is truthy. *)
Definition styleCalls (stroke : Stroke.t) (st : Sketchpad) : list CanvasCall :=
  match truthy_string (Stroke.color stroke) with
  | Some c => [ctx_strokeStyle c] | None => [] end ++
  match truthy_number (Stroke.width stroke) with
  | Some w => [ctx_lineWidth (normalizeLineWidth w st)] | None => [] end ++
  match Stroke.join stroke with
  | Some j => [ctx_lineJoin j] | None => [] end ++
  match Stroke.cap stroke with
  | Some c => [ctx_lineCap c] | None => [] end ++
  match truthy_number (Stroke.miterLimit stroke) with
  | Some m => [ctx_miterLimit m] | None => [] end.

(** The loop of [drawStroke] over [i < points.length - 1], as a walk over
    the pairs [points[i]], [points[i + 1]]: a pair is drawn unless one of its
    points is marked. *)
Fixpoint lineCalls (points : list PointI) (st : Sketchpad) : list CanvasCall :=
  match points with
  | currentPoint :: ((nextPoint :: _) as tl) =>
      (if negb (is_skipped currentPoint || is_skipped nextPoint)
       then
         let e := normalizePoint currentPoint st in
         let n := normalizePoint nextPoint st in
         [ctx_moveTo (px e) (py e); ctx_lineTo (px n) (py n)]
       else []) ++ lineCalls tl st
  | _ => []
  end.

Definition drawStroke (stroke : Stroke.t) (st : Sketchpad) : list CanvasCall :=
  match Stroke.points stroke with
  | None => []
  | Some points =>
      [ctx_beginPath] ++ lineCalls points st ++ [ctx_closePath] ++
      styleCalls stroke st ++ [ctx_stroke]
  end.

(** The loop of [drawQuadraticCurveStroke] over [1 <= i < points.length - 1]:
    [l] is [points] from index [i] on, [originPt] the destination of the arc
    before. *)
Fixpoint curveCalls (originPt : PointI) (l : list PointI) (st : Sketchpad)
    : list CanvasCall :=
  match l with
  | pi :: ((pi1 :: _) as tl) =>
      let controlPt := normalizePoint pi st in
      let destinationPt := normalizePoint (midPoint pi pi1) st in
      (if negb (is_skipped originPt || is_skipped destinationPt)
       then [ctx_quadraticCurveTo (px controlPt) (py controlPt)
               (px destinationPt) (py destinationPt)]
       else []) ++ curveCalls destinationPt tl st
  | _ => []
  end.

(** [drawQuadraticCurveStroke]: the calls made, and the completion; reading
    [points[0]] of an empty array gives [undefined], on which
    [normalizePoint] throws after [beginPath]. *)
Definition drawQuadraticCurveStroke (stroke : Stroke.t) (st : Sketchpad)
    : list CanvasCall * outcome unit :=
  match Stroke.points stroke with
  | None => ([], Ret tt)
  | Some [] => ([ctx_beginPath], TypeError)
  | Some ((p0 :: rest) as points) =>
      let originPt := normalizePoint p0 st in
      let controlPt := originPt in
      let destinationPt :=
        match rest with
        | p1 :: _ => normalizePoint (midPoint p0 p1) st
        | [] => originPt
        end in
      ([ctx_beginPath] ++
       (if negb (is_skipped originPt || is_skipped destinationPt)
        then [ctx_moveTo (px originPt) (py originPt);
              ctx_quadraticCurveTo (px controlPt) (py controlPt)
                (px destinationPt) (py destinationPt)]
        else []) ++
       curveCalls destinationPt rest st ++
       styleCalls stroke st ++ [ctx_stroke],
       Ret tt)
  end.

(** [forEach] over the strokes, the last one drawn as a live curve while a
    gesture is open in draw mode; a throw ends the pass. *)
Fixpoint drawAll (l : list Stroke.t) (st : Sketchpad)
    : list CanvasCall * outcome unit :=
  match l with
  | [] => ([], Ret tt)
  | s :: tl =>
      match tl with
      | [] =>
          if negb (isEraserActive st) && sketching st
          then drawQuadraticCurveStroke s st
          else (drawStroke s st, Ret tt)
      | _ :: _ =>
          let (calls, o) := drawAll tl st in
          (drawStroke s st ++ calls, o)
      end
  end.

Definition redraw (st : Sketchpad) : list CanvasCall * outcome unit :=
  let (calls, o) := drawAll (_strokes st) st in
  (clearCanvas st ++ calls, o).

(** The line segments among the calls: the [moveTo] and [lineTo] calls. *)
Definition is_line_call (c : CanvasCall) : bool :=
  match c with
  | ctx_moveTo _ _ | ctx_lineTo _ _ => true
  | _ => false
  end.

(** The [closePath] calls among the calls: one ends each path drawn. *)
Definition is_closePath (c : CanvasCall) : bool :=
  match c with
  | ctx_closePath => true
  | _ => false
  end.

(** ** The numeric code over the arithmetic of the language

    The definitions above compute with exact rationals.  The code computes
    with IEEE doubles: every finite double is a rational, comparisons,
    [Math.ceil] and [Math.max] are exact on doubles, and [+], [-], [*], [/],
    [Math.hypot] and [Math.pow] round.  Module [JS] gives the numeric
    functions of the class once more with these six operations as a
    parameter, so that what is proved of them holds whatever the rounding;
    the data (points, strokes, the pad) and the functions that do no
    arithmetic are the ones above. *)

Module JS.

Record Arithmetic : Type := mkArithmetic {
  add : Q -> Q -> Q;
  sub : Q -> Q -> Q;
  mul : Q -> Q -> Q;
  div : Q -> Q -> Q;
  Math_hypot : Q -> Q -> Q;
  Math_pow : Q -> Q -> Q }.

Section Code.
Variable A : Arithmetic.

(** [erasePoints], inner callback. *)
Definition erasePoint (cursor : PointI) (areaOfEraser : Q) (point : PointI) : PointI :=
  let dx := sub A (px point) (px cursor) in
  let dy := sub A (py point) (py cursor) in
  let distanceSquared := add A (mul A dx dx) (mul A dy dy) in
  if Qle_bool distanceSquared areaOfEraser
  then mkPoint (px point) (py point) (Some true)
  else point.

(** [erasePoints], outer callback. *)
Fixpoint eraseStrokes (cursor : PointI) (areaOfEraser : Q) (l : list Stroke.t)
    : list Stroke.t * outcome unit :=
  match l with
  | [] => ([], Ret tt)
  | stroke :: tl =>
      match Stroke.points stroke with
      | None => (stroke :: tl, TypeError)
      | Some ps =>
          let (tl', o) := eraseStrokes cursor areaOfEraser tl in
          (Stroke.with_points stroke (Some (map (erasePoint cursor areaOfEraser) ps)) :: tl', o)
      end
  end.

Definition getLineWidthRelativeToCanvas (size : Q) (st : Sketchpad) : Q :=
  div A size (canvas_width st).

(** [this.getLineWidthRelativeToCanvas(this.eraserSize) / 2] *)
Definition eraserRadius (st : Sketchpad) : Q :=
  div A (getLineWidthRelativeToCanvas (eraserSize st) st) 2.

Definition erasePoints (cursor : PointI) (st : Sketchpad) : Sketchpad * outcome unit :=
  let eraserSize := eraserRadius st in
  let areaOfEraser := mul A eraserSize eraserSize in
  let (l, o) := eraseStrokes cursor areaOfEraser (_strokes st) in
  (set_strokes l st, o).

(** The stroke with its points marked by [erasePoint]. *)
Definition markStroke (cursor : PointI) (areaOfEraser : Q) (s : Stroke.t) : Stroke.t :=
  Stroke.with_points s
    (option_map (map (erasePoint cursor areaOfEraser)) (Stroke.points s)).

Definition midPoint (p1 p2 : PointI) : PointI :=
  Point (div A (add A (px p1) (px p2)) 2) (div A (add A (py p1) (py p2)) 2).

(** [Math.max(1, Math.ceil(distance / interval))], an integer, which is the
    number of rounds of the sampling loop. *)
Definition numIntervals (distance interval : Q) : nat :=
  Z.to_nat (Z.max 1 (Qceiling (div A distance interval))).

(** [Math.pow(1 - t, 2) * o + 2 * (1 - t) * t * c + Math.pow(t, 2) * d], with
    the grouping of the source expression. *)
Definition bezier (t o c d : Q) : Q :=
  add A
    (add A (mul A (Math_pow A (sub A 1 t) 2) o)
           (mul A (mul A (mul A 2 (sub A 1 t)) t) c))
    (mul A (Math_pow A t 2) d).

Definition interpolateQuadraticCurve (originPt controlPt destinationPt : PointI)
    (numPoints : nat) : list PointI :=
  map (fun pt : nat =>
         let t := div A (inject_Z (Z.of_nat pt)) (inject_Z (Z.of_nat numPoints)) in
         let x := bezier t (px originPt) (px controlPt) (px destinationPt) in
         let y := bezier t (py originPt) (py controlPt) (py destinationPt) in
         xy x y)
      (seq 0 numPoints).

Section Interpolation.
(** [this.canvas.width] and [this.canvas.height] *)
Variables (cw ch : Q).

(** The callback of [points.map]. *)
Definition toPixels (point : PointI) : PointI :=
  mkPoint (mul A (px point) cw) (mul A (py point) ch) (Some false).

(** The callback of [interpolatedPoints.forEach]. *)
Definition renormalize (point : PointI) : PointI :=
  mkPoint (div A (px point) cw) (div A (py point) ch) (Some false).

(** The chord, the sample count, the samples and their conversion. *)
Definition arcPoints (originPt controlPt destinationPt : PointI) (interval : Q)
    : list PointI :=
  let distance :=
    Math_hypot A (sub A (px destinationPt) (px originPt))
                 (sub A (py destinationPt) (py originPt)) in
  let numIntervals := numIntervals distance interval in
  map renormalize
    (interpolateQuadraticCurve originPt controlPt destinationPt numIntervals).

(** One round of the [for (let j = 1; ...)] loop. *)
Definition arcStep (transformedPoints : list PointI) (interval : Q)
    (state : outcome (PointI * list PointI)) (j : nat)
    : outcome (PointI * list PointI) :=
  s <- state ;;
  let originPt := fst s in
  controlPt <- at_index transformedPoints j ;;
  next <- at_index transformedPoints (j + 1) ;;
  let destinationPt := midPoint controlPt next in
  let interpolatedPoints := arcPoints originPt controlPt destinationPt interval in
  Ret (destinationPt, snd s ++ interpolatedPoints).

Definition interpolateExistingShapePaths (stroke : Stroke.t) (interval : Q)
    : outcome Stroke.t :=
  let points := Stroke.points_or_empty stroke in
  let transformedPoints := map toPixels points in
  first <- at_index transformedPoints 0 ;;
  let out := [xy (div A (px first) cw) (div A (py first) ch)] in
  let originPt := first in
  let controlPt := originPt in
  init <-
    (if (1 <? List.length transformedPoints)%nat then
       second <- at_index transformedPoints 1 ;;
       let destinationPt := midPoint first second in
       let interpolatedPoints := arcPoints originPt controlPt destinationPt interval in
       Ret (destinationPt, out ++ interpolatedPoints)
     else Ret (originPt, out)) ;;
  final <- fold_left (arcStep transformedPoints interval)
             (seq 1 (List.length transformedPoints - 1 - 1)) (Ret init) ;;
  Ret (Stroke.mk (Some (snd final)) (Stroke.width stroke) (Stroke.color stroke)
         (Stroke.cap stroke) (Stroke.join stroke) (Stroke.miterLimit stroke)
         (Some true)).

(** The arcs around the raw points, as the design describes them: [prev] is
    the raw point before [l]. *)
Fixpoint smooth_arcs (prev : PointI) (l : list PointI) : list arc :=
  match l with
  | pj :: ((pj1 :: _) as tl) =>
      (midPoint prev pj, pj, midPoint pj pj1) :: smooth_arcs pj tl
  | _ => []
  end.

Definition arcs (raw : list PointI) : list arc :=
  match raw with
  | p0 :: ((p1 :: _) as tl) => (p0, p0, midPoint p0 p1) :: smooth_arcs p0 tl
  | _ => []
  end.

(** The chord length of an arc, as [Math.hypot] gives it. *)
Definition chord (a : arc) : Q :=
  Math_hypot A (sub A (px (arc_destination a)) (px (arc_origin a)))
               (sub A (py (arc_destination a)) (py (arc_origin a))).

(** The number of samples of an arc. *)
Definition sampleCount (a : arc) (k : Q) : nat := numIntervals (chord a) k.

(** What an arc contributes to the output stroke. *)
Definition arcOutput (k : Q) (a : arc) : list PointI :=
  arcPoints (arc_origin a) (arc_control a) (arc_destination a) k.
End Interpolation.
End Code.

(** *** Binary64

    The rounding of a rational to the nearest double, ties to even, with
    gradual underflow; rationals beyond the largest double are outside the
    model. *)

Section Rounding.
Local Open Scope Z_scope.

(** [n / d] to the nearest integer, ties to even, for [0 <= n] and [0 < d]. *)
Definition round_half_even (n d : Z) : Z :=
  let q := n / d in
  let r := n mod d in
  match (2 * r ?= d) with
  | Lt => q
  | Gt => q + 1
  | Eq => if Z.even q then q else q + 1
  end.

(** The exponent [e] with [2^e <= a / b < 2^(e + 1)], for [0 < a], [0 < b]. *)
Definition floor_log2 (a b : Z) : Z :=
  let e := Z.log2 a - Z.log2 b in
  if (if 0 <=? e then a <? b * 2 ^ e else a * 2 ^ (- e) <? b) then e - 1 else e.

(** The double nearest to [a / b], for [0 < a], [0 < b]: 53 significant bits,
    the exponent not below that of the subnormal numbers. *)
Definition round_pos (a b : Z) : Q :=
  let e := Z.max (floor_log2 a b) (-1022) in
  let s := 52 - e in
  let m := if 0 <=? s then round_half_even (a * 2 ^ s) b
           else round_half_even a (b * 2 ^ (- s)) in
  if 0 <=? s then Qred (Qmake m (Z.to_pos (2 ^ s)))
  else inject_Z (m * 2 ^ (- s)).

(** The double nearest to [q]. *)
Definition fl (q : Q) : Q :=
  match Qnum q with
  | Z0 => 0%Q
  | Zpos a => round_pos (Zpos a) (Zpos (Qden q))
  | Zneg a => Qopp (round_pos (Zpos a) (Zpos (Qden q)))
  end.

(** The double nearest to the square root of [q]: the root is bracketed to
    more than 64 bits, which decides the rounding. *)
Definition fl_sqrt (q : Q) : Q :=
  match Qnum q with
  | Zpos a' =>
      let a := Zpos a' in
      let b := Zpos (Qden q) in
      let k := 64 + Z.max 0 (Z.log2 b - Z.log2 a) in
      let x := (a * 2 ^ (2 * k)) / b in
      let r := Z.sqrt x in
      if andb (r * r =? x) ((a * 2 ^ (2 * k)) mod b =? 0)
      then fl (Qmake r (Z.to_pos (2 ^ k)))
      else fl (Qmake (2 * r + 1) (Z.to_pos (2 ^ (k + 1))))
  | _ => 0%Q
  end.
End Rounding.

(** The arithmetic of doubles: each operation is the exact one followed by
    rounding ([Math.hypot] and [Math.pow], which the language leaves to the
    implementation, are taken as correctly rounded; [Math.pow] is given for
    integral exponents). *)
Definition binary64 : Arithmetic :=
  mkArithmetic
    (fun a b => fl (a + b)) (fun a b => fl (a - b))
    (fun a b => fl (a * b)) (fun a b => fl (a / b))
    (fun x y => fl_sqrt (x * x + y * y))
    (fun x y => fl (x ^ Qfloor y)).

(** Exact arithmetic on the four operations, with given [Math.hypot] and
    [Math.pow]. *)
Definition exact (hypot pow : Q -> Q -> Q) : Arithmetic :=
  mkArithmetic Qplus Qminus Qmult Qdiv hypot pow.

(** A point whose squared distance to the cursor is zero passes the hit
    test whatever the radius: [x - x], [0 * 0] and [0 + 0] are zero, and a
    square is not negative. *)
Definition center_passes (A : Arithmetic) : Prop :=
  forall x y r,
    Qle_bool (add A (mul A (sub A x x) (sub A x x)) (mul A (sub A y y) (sub A y y)))
             (mul A r r) = true.
End JS.

(** The hit test of [erasePoints] as the source writes it,
    [dx * dx + dy * dy <= areaOfEraser], in a given arithmetic. *)
Definition passes (A : JS.Arithmetic) (cursor : PointI) (area : Q) (p : PointI) : bool :=
  Qle_bool
    (JS.add A
       (JS.mul A (JS.sub A (px p) (px cursor)) (JS.sub A (px p) (px cursor)))
       (JS.mul A (JS.sub A (py p) (py cursor)) (JS.sub A (py p) (py cursor))))
    area.

(** The point, marked. *)
Definition marked (p : PointI) : PointI := mkPoint (px p) (py p) (Some true).



(** A stroke from the corner to the pixel (28, 0) of a canvas of 100 by 100
    pixels, as the handlers record it: 28 / 100, in doubles. *)
Definition shortStroke : Stroke.t :=
  sampleStroke [Point 0 0; Point (JS.div JS.binary64 28 100) 0].

(** * Properties *)

(** ** Arrays *)

Lemma pop_nil (A : Type) : pop (@nil A) = (None, []).
Proof. reflexivity. Qed.

Lemma pop_push (A : Type) (l : list A) (a : A) : pop (push l a) = (Some a, l).
Proof.
  unfold pop, push. rewrite rev_app_distr. simpl. now rewrite rev_involutive.
Qed.

Lemma pop_none (A : Type) (l : list A) : fst (pop l) = None -> l = [].
Proof.
  unfold pop. destruct (rev l) eqn:E; simpl; [| discriminate].
  intros _. apply (f_equal (@rev A)) in E. now rewrite rev_involutive in E.
Qed.

Lemma pop_some (A : Type) (l r : list A) (a : A) :
  pop l = (Some a, r) -> l = push r a.
Proof.
  unfold pop, push. destruct (rev l) eqn:E; [discriminate |].
  intros H. injection H as <- <-.
  apply (f_equal (@rev A)) in E. rewrite rev_involutive in E. now subst l.
Qed.

(** ** History *)

Section History.
Variable st : Sketchpad.

Lemma undo_push (l : list Stroke.t) (s : Stroke.t) :
  _strokes st = push l s ->
  undo st = set_undoneStrokes (push (undoneStrokes st) s) (set_strokes l st).
Proof. intros H. unfold undo. now rewrite H, pop_push. Qed.

Lemma redo_push (u : list Stroke.t) (s : Stroke.t) :
  undoneStrokes st = push u s ->
  redo st = set_strokes (push (_strokes st) s) (set_undoneStrokes u st).
Proof. intros H. unfold redo. now rewrite H, pop_push. Qed.

Lemma undo_empty : _strokes st = [] -> undo st = st.
Proof. intros H. unfold undo. now rewrite H. Qed.

Lemma redo_empty : undoneStrokes st = [] -> redo st = st.
Proof. intros H. unfold redo. now rewrite H. Qed.
End History.

(** C7. On a non-empty stroke list [undo] moves exactly the last stroke to
    the end of the undone stack, and a [redo] right after it gives back the
    state before the [undo], stroke list included; [undo] on an empty stroke
    list and [redo] on an empty undone stack change nothing. *)
Theorem undo_then_redo_restores (st : Sketchpad) :
  (forall l s, _strokes st = l ++ [s] ->
     _strokes (undo st) = l /\
     undoneStrokes (undo st) = undoneStrokes st ++ [s] /\
     redo (undo st) = st) /\
  (_strokes st = [] -> undo st = st) /\
  (undoneStrokes st = [] -> redo st = st).
Proof.
  split; [| split; [apply undo_empty | apply redo_empty]].
  intros l s H. rewrite (undo_push st l s H).
  repeat split.
  rewrite (redo_push _ (undoneStrokes st) s) by reflexivity.
  destruct st; simpl in *. unfold set_strokes, set_undoneStrokes, push; simpl.
  now rewrite H.
Qed.

Lemma undo_then_redo_restores_witness :
  let st := set_strokes [sampleStroke [Point 0 0]; sampleStroke [Point 1 1]] emptyPad in
  _strokes (undo st) = [sampleStroke [Point 0 0]] /\
  undoneStrokes (undo st) = [sampleStroke [Point 1 1]] /\
  redo (undo st) = st.
Proof.
  intros st.
  exact (proj1 (undo_then_redo_restores st)
           [sampleStroke [Point 0 0]] (sampleStroke [Point 1 1]) eq_refl).
Defined.

(** C8. [clear] empties the stroke list and the undone stack, so an [undo]
    right after it finds nothing to pop and changes nothing. *)
Theorem clear_then_undo_noop (st : Sketchpad) :
  _strokes (clear st) = [] /\
  undoneStrokes (clear st) = [] /\
  undo (clear st) = clear st /\
  redo (clear st) = clear st.
Proof. repeat split. Qed.

(** ** What the editing operations leave alone *)

Lemma assign_if_undone (A : Type) (o : option A) (set : A -> Sketchpad -> Sketchpad)
    (st : Sketchpad) :
  (forall v s, undoneStrokes (set v s) = undoneStrokes s) ->
  undoneStrokes (assign_if o set st) = undoneStrokes st.
Proof. intros H. destruct o; simpl; auto. Qed.

Lemma setOptions_undone (opts : SketchpadOptionsI.t) (st : Sketchpad) :
  undoneStrokes (setOptions opts st) = undoneStrokes st.
Proof.
  unfold setOptions.
  destruct (SketchpadOptionsI.data opts); simpl;
    repeat (rewrite assign_if_undone; [| reflexivity]); reflexivity.
Qed.

Lemma pushStroke_undone (points : list PointI) (st : Sketchpad) :
  undoneStrokes (pushStroke points st) = undoneStrokes st.
Proof. reflexivity. Qed.

Lemma drawLine_undone (a b : PointI) (lo : LineOptionsI.t) (st : Sketchpad) :
  undoneStrokes (drawLine a b lo st) = undoneStrokes st.
Proof. unfold drawLine. rewrite pushStroke_undone. apply setOptions_undone. Qed.

Lemma erasePoints_undone (cursor : PointI) (st : Sketchpad) :
  undoneStrokes (fst (erasePoints cursor st)) = undoneStrokes st.
Proof.
  unfold erasePoints. now destruct (eraseStrokes _ _ _).
Qed.

Lemma pushPoint_undone (point : PointI) (st : Sketchpad) :
  undoneStrokes (fst (pushPoint point st)) = undoneStrokes st.
Proof.
  unfold pushPoint. destruct (pop (_strokes st)) as [[s |] rest]; [| reflexivity].
  now destruct (Stroke.points s).
Qed.

Lemma createNewStrokesAfterInterpolation_undone (o : option Stroke.t) (k : Q)
    (st : Sketchpad) :
  undoneStrokes (fst (createNewStrokesAfterInterpolation o k st)) = undoneStrokes st.
Proof.
  unfold createNewStrokesAfterInterpolation. destruct o as [s |]; [| reflexivity].
  now destruct (interpolateExistingShapePaths _ _ _ _).
Qed.

Lemma andThen_undone (r : Sketchpad * outcome unit)
    (k : Sketchpad -> Sketchpad * outcome unit) (u : list Stroke.t) :
  undoneStrokes (fst r) = u ->
  (forall s, undoneStrokes s = u -> undoneStrokes (fst (k s)) = u) ->
  undoneStrokes (fst (andThen r k)) = u.
Proof.
  intros Hr Hk. unfold andThen. destruct (snd r); simpl; auto.
Qed.

Lemma endStrokeHandler_undone (e : Event) (st : Sketchpad) :
  undoneStrokes (fst (endStrokeHandler e st)) = undoneStrokes st.
Proof.
  unfold endStrokeHandler.
  destruct (sketching st); simpl; [| reflexivity].
  destruct (isTouchEvent e); [reflexivity |].
  unfold withValue. destruct (getCursorRelativeToCanvas e _); try reflexivity.
  apply andThen_undone; [| intros s Hs; exact Hs].
  destruct (isEraserActive _).
  - now rewrite erasePoints_undone.
  - apply andThen_undone.
    + now rewrite pushPoint_undone.
    + intros s Hs. now rewrite createNewStrokesAfterInterpolation_undone.
Qed.

(** C1, as stated, fails: after an [undo], a line inserted with [drawLine]
    leaves the undone stack as it was, and the [redo] that follows puts the
    undone stroke on top of the new line. *)
Lemma commit_keeps_undone_counterexample :
  let undone := sampleStroke [Point 0 0; Point (1 # 2) (1 # 2)] in
  let st := drawLine (Point 10 10) (Point 20 20) noLineOptions (undo oneStrokePad) in
  let drawn :=
    fst (endStrokeHandler (MouseEvent 30 30)
           (fst (drawStrokeHandler (MouseEvent 20 20)
                   (fst (startStrokeHandler (MouseEvent 10 10) (undo oneStrokePad)))))) in
  (undoneStrokes st = [undone] /\
   redo st <> st /\
   List.length (_strokes st) = 1%nat /\
   _strokes (redo st) = _strokes st ++ [undone]) /\
  (undoneStrokes drawn = [undone] /\
   redo drawn <> drawn /\
   List.length (_strokes drawn) = 1%nat /\
   _strokes (redo drawn) = _strokes drawn ++ [undone]).
Proof.
  cbv zeta.
  split; (split; [vm_compute; reflexivity |]);
    (split; [| split; vm_compute; reflexivity]);
    intros H; apply (f_equal (fun s => List.length (_strokes s))) in H;
    vm_compute in H; discriminate H.
Qed.

Lemma redo_after_commit (st' : Sketchpad) (u : list Stroke.t) (s : Stroke.t) :
  undoneStrokes st' = u ++ [s] ->
  _strokes (redo st') = _strokes st' ++ [s] /\ undoneStrokes (redo st') = u.
Proof.
  intros H. rewrite (redo_push st' u s H). split; reflexivity.
Qed.

(** C1, amended. Committing a stroke, by [pushStroke], by [drawLine] or by
    finishing a drawn stroke in [endStrokeHandler], leaves the undone stack
    unchanged; a [redo] right after any of these commits therefore takes the
    most recently undone stroke off the undone stack and appends it to the
    stroke list as the commit left it. *)
Theorem commit_keeps_undone (st : Sketchpad) :
  (forall points, undoneStrokes (pushStroke points st) = undoneStrokes st) /\
  (forall a b lo, undoneStrokes (drawLine a b lo st) = undoneStrokes st) /\
  (forall e, undoneStrokes (fst (endStrokeHandler e st)) = undoneStrokes st) /\
  (forall u s, undoneStrokes st = u ++ [s] ->
     (forall points,
        let st' := pushStroke points st in
        _strokes (redo st') = _strokes st' ++ [s] /\ undoneStrokes (redo st') = u) /\
     (forall a b lo,
        let st' := drawLine a b lo st in
        _strokes (redo st') = _strokes st' ++ [s] /\ undoneStrokes (redo st') = u) /\
     (forall e,
        let st' := fst (endStrokeHandler e st) in
        _strokes (redo st') = _strokes st' ++ [s] /\ undoneStrokes (redo st') = u)).
Proof.
  split; [reflexivity |].
  split; [intros; apply drawLine_undone |].
  split; [intros; apply endStrokeHandler_undone |].
  intros u s H. split; [| split].
  - intros points st'. apply redo_after_commit. exact H.
  - intros a b lo st'. apply redo_after_commit. subst st'.
    now rewrite drawLine_undone.
  - intros e st'. apply redo_after_commit. subst st'.
    now rewrite endStrokeHandler_undone.
Qed.

(** After an [undo] on a pad of one stroke: a line inserted with [drawLine],
    and a stroke drawn with the mouse, are each followed in the stroke list
    by the stroke that [redo] brings back. *)
Lemma commit_keeps_undone_witness :
  let s := sampleStroke [Point 0 0; Point (1 # 2) (1 # 2)] in
  let line := drawLine (Point 10 10) (Point 20 20) noLineOptions (undo oneStrokePad) in
  let moved :=
    fst (drawStrokeHandler (MouseEvent 20 20)
           (fst (startStrokeHandler (MouseEvent 10 10) (undo oneStrokePad)))) in
  let drawn := fst (endStrokeHandler (MouseEvent 30 30) moved) in
  (_strokes (redo line) = _strokes line ++ [s] /\ undoneStrokes (redo line) = []) /\
  (_strokes (redo drawn) = _strokes drawn ++ [s] /\ undoneStrokes (redo drawn) = []).
Proof.
  intros s line moved drawn. split.
  - exact (proj1 (proj2 (proj2 (proj2 (proj2 (commit_keeps_undone (undo oneStrokePad))))
                           [] s eq_refl))
             (Point 10 10) (Point 20 20) noLineOptions).
  - exact (proj2 (proj2 (proj2 (proj2 (proj2 (commit_keeps_undone moved)))
                           [] s eq_refl))
             (MouseEvent 30 30)).
Defined.

(** ** [drawLine] and the default style *)

Lemma setOptions_of_line (lo : LineOptionsI.t) (st : Sketchpad) :
  setOptions (SketchpadOptionsI.of_line lo) st =
  mkSketchpad (canvas_width st) (canvas_height st) (sketching st)
    (isEraserActive st) (_strokes st) (undoneStrokes st) (backgroundColor st)
    (readOnly st) (aspectRatio st)
    (or_default (truthy_number (LineOptionsI.size lo)) (lineWidth st))
    (lineColor st)
    (or_default (LineOptionsI.cap lo) (lineCap st))
    (or_default (LineOptionsI.join lo) (lineJoin st))
    (or_default (truthy_number (LineOptionsI.miterLimit lo)) (lineMiterLimit st))
    (or_default (truthy_bool (LineOptionsI.isInterpolationDone lo))
       (isInterpolationDone st))
    (eraserSize st).
Proof.
  destruct st, lo as [size color cap join miterLimit done].
  unfold setOptions, SketchpadOptionsI.of_line, line_field; simpl.
  destruct (truthy_number size), (truthy_bool done), cap, join,
    (truthy_number miterLimit); reflexivity.
Qed.

(** C9. [drawLine] writes the truthy [size], [cap], [join] and [miterLimit]
    of its options into the default style of the pad, where they stay for
    the strokes pushed afterwards; it never reads [color], so the default
    colour is unchanged, the result does not depend on the colour asked for,
    and the inserted line carries the default colour set before the call. *)
Theorem drawLine_mutates_defaults_ignores_color
    (st : Sketchpad) (a b : PointI) (lo : LineOptionsI.t) :
  let st' := drawLine a b lo st in
  lineWidth st' = or_default (truthy_number (LineOptionsI.size lo)) (lineWidth st) /\
  lineCap st' = or_default (LineOptionsI.cap lo) (lineCap st) /\
  lineJoin st' = or_default (LineOptionsI.join lo) (lineJoin st) /\
  lineMiterLimit st' =
    or_default (truthy_number (LineOptionsI.miterLimit lo)) (lineMiterLimit st) /\
  lineColor st' = lineColor st /\
  (forall c : option string,
     drawLine a b
       (LineOptionsI.mk (LineOptionsI.size lo) c (LineOptionsI.cap lo)
          (LineOptionsI.join lo) (LineOptionsI.miterLimit lo)
          (LineOptionsI.isInterpolationDone lo)) st = st') /\
  (exists line,
     _strokes st' = _strokes st ++ [line] /\
     Stroke.color line = Some (lineColor st) /\
     Stroke.width line = Some (lineWidth st' / canvas_width st) /\
     Stroke.cap line = Some (lineCap st') /\
     Stroke.join line = Some (lineJoin st') /\
     Stroke.miterLimit line = Some (lineMiterLimit st')) /\
  (forall points, exists next,
     _strokes (pushStroke points st') = _strokes st' ++ [next] /\
     Stroke.color next = Some (lineColor st) /\
     Stroke.width next = Some (lineWidth st' / canvas_width st) /\
     Stroke.cap next = Some (lineCap st') /\
     Stroke.join next = Some (lineJoin st') /\
     Stroke.miterLimit next = Some (lineMiterLimit st')).
Proof.
  intros st'. subst st'. unfold drawLine.
  rewrite setOptions_of_line.
  repeat split.
  - intros c. now rewrite setOptions_of_line.
  - eexists. repeat split.
  - intros points. eexists. repeat split.
Qed.

(** A red line of width 3 asked of a fresh pad: the line is black, and the
    default width of the pad is 3 from then on. *)
Example drawLine_red_on_fresh_pad :
  let st := drawLine (Point 10 10) (Point 20 20)
              (LineOptionsI.mk (Some 3) (Some "red"%string) None None None None)
              emptyPad in
  option_map Stroke.color (fst (pop (_strokes st))) = Some (Some "#000"%string) /\
  lineWidth st = 3 /\
  lineColor st = "#000"%string.
Proof. repeat split. Qed.

(** ** Re-segmentation *)

Section Resegment.
Variable newStroke : Stroke.t.

Lemma resegment_cons (p : PointI) (rest cur : list PointI) :
  resegment newStroke (p :: rest) cur =
  if is_skipped p then
    if (0 <? List.length cur)%nat
    then Stroke.with_points newStroke (Some cur) :: resegment newStroke rest []
    else resegment newStroke rest cur
  else
    (match rest with
     | [] => [Stroke.with_points newStroke (Some (push cur p))]
     | _ :: _ => []
     end) ++ resegment newStroke rest (push cur p).
Proof. reflexivity. Qed.

Lemma resegment_all_skipped (pts : list PointI) :
  Forall (fun p => is_skipped p = true) pts ->
  resegment newStroke pts [] = [].
Proof.
  induction 1 as [| p pts Hp _ IH]; simpl; [reflexivity |].
  now rewrite Hp.
Qed.

Lemma resegment_none_skipped (pts : list PointI) :
  Forall (fun p => is_skipped p = false) pts ->
  forall cur, pts <> [] ->
  resegment newStroke pts cur = [Stroke.with_points newStroke (Some (cur ++ pts))].
Proof.
  induction 1 as [| p pts Hp Hrest IH]; intros cur Hne; [congruence |].
  rewrite resegment_cons, Hp. destruct pts as [| q pts].
  - reflexivity.
  - rewrite IH by discriminate.
    unfold push. now rewrite <- app_assoc.
Qed.

(** Fragments hold unmarked points only and are never empty. *)
Lemma resegment_clean (pts : list PointI) :
  forall cur, Forall (fun p => is_skipped p = false) cur ->
  Forall (fun f => exists ps, Stroke.points f = Some ps /\ ps <> [] /\
                              Forall (fun p => is_skipped p = false) ps)
         (resegment newStroke pts cur).
Proof.
  induction pts as [| p pts IH]; intros cur Hcur; simpl; [constructor |].
  destruct (is_skipped p) eqn:Hp.
  - destruct cur as [| c cur]; simpl.
    + now apply IH.
    + constructor; [| now apply IH].
      exists (c :: cur). repeat split; [discriminate | assumption].
  - assert (Hcur' : Forall (fun p => is_skipped p = false) (push cur p)).
    { unfold push. apply Forall_app. split; [assumption | now constructor]. }
    apply Forall_app. split; [| now apply IH].
    destruct pts; constructor; [| constructor].
    exists (push cur p). repeat split; [| assumption].
    unfold push. now destruct cur.
Qed.

(** Every fragment carries the style of [newStroke]. *)
Lemma resegment_style (pts : list PointI) :
  forall cur,
  Forall (fun f => same_style f newStroke) (resegment newStroke pts cur).
Proof.
  induction pts as [| p pts IH]; intros cur; simpl; [constructor |].
  destruct (is_skipped p).
  - destruct (0 <? List.length cur)%nat; [constructor |]; auto.
    repeat split.
  - apply Forall_app. split; [| apply IH].
    destruct pts; constructor; [repeat split | constructor].
Qed.
End Resegment.

Lemma fragments_clean (s : Stroke.t) :
  Forall (fun f => exists ps, Stroke.points f = Some ps /\ ps <> [] /\
                              Forall (fun p => is_skipped p = false) ps)
         (fragments s).
Proof. apply resegment_clean. constructor. Qed.

Lemma fragments_style (s : Stroke.t) :
  Forall (fun f => same_style f s) (fragments s).
Proof.
  unfold fragments. eapply Forall_impl; [| apply resegment_style].
  intros f H. exact H.
Qed.

Lemma fragments_all_skipped (s : Stroke.t) :
  Forall (fun p => is_skipped p = true) (Stroke.points_or_empty s) ->
  fragments s = [].
Proof. apply resegment_all_skipped. Qed.

Lemma fragments_untouched (s : Stroke.t) (ps : list PointI) :
  Stroke.points s = Some ps -> ps <> [] ->
  Forall (fun p => is_skipped p = false) ps ->
  fragments s = [s].
Proof.
  intros Hs Hne Hps. unfold fragments, Stroke.points_or_empty. rewrite Hs.
  rewrite resegment_none_skipped by assumption.
  destruct s; simpl in *. now subst.
Qed.

Lemma createNewStrokesAfterErasing_strokes (st : Sketchpad) :
  _strokes (createNewStrokesAfterErasing st) = flat_map fragments (_strokes st).
Proof. reflexivity. Qed.

Lemma createNewStrokesAfterErasing_clean (st : Sketchpad) :
  no_skipped (_strokes (createNewStrokesAfterErasing st)).
Proof.
  rewrite createNewStrokesAfterErasing_strokes. unfold no_skipped.
  induction (_strokes st) as [| s l IH]; simpl; [constructor |].
  apply Forall_app. split; [| exact IH].
  eapply Forall_impl; [| apply fragments_clean].
  intros f (ps & Hf & _ & Hps). unfold Stroke.points_or_empty. now rewrite Hf.
Qed.

(** C4, as stated, fails on a stroke without points, such as [loadJSON]
    accepts: none of its points is marked, and yet it yields no fragment
    instead of one, so re-segmentation drops it from the document. *)
Lemma resegment_cases_counterexample :
  let s := sampleStroke [] in
  let loaded :=
    loadJSON (DataI.mk None (Some [Stroke.toObj s])) eraserPad in
  Forall (fun p => is_skipped p = false) (Stroke.points_or_empty s) /\
  fragments s = [] /\
  fragments s <> [s] /\
  _strokes loaded = [s] /\
  _strokes (createNewStrokesAfterErasing loaded) = [].
Proof. cbv zeta. repeat split; [constructor | discriminate]. Qed.

(** C4, amended. A stroke all of whose points are marked yields no fragment
    and is absent from the re-segmented document; a stroke with at least one
    point and no marked point yields exactly itself; a stroke of five points
    whose third point alone is marked yields two fragments, of the first two
    and of the last two points, both with the style of the parent. *)
Theorem resegment_cases (s : Stroke.t) :
  (Forall (fun p => is_skipped p = true) (Stroke.points_or_empty s) ->
     fragments s = [] /\
     forall st before after, _strokes st = before ++ s :: after ->
       _strokes (createNewStrokesAfterErasing st) =
       flat_map fragments before ++ flat_map fragments after) /\
  (forall ps, Stroke.points s = Some ps -> ps <> [] ->
     Forall (fun p => is_skipped p = false) ps ->
     fragments s = [s]) /\
  (forall p1 p2 p3 p4 p5, Stroke.points s = Some [p1; p2; p3; p4; p5] ->
     is_skipped p1 = false -> is_skipped p2 = false -> is_skipped p3 = true ->
     is_skipped p4 = false -> is_skipped p5 = false ->
     exists f1 f2,
       fragments s = [f1; f2] /\
       Stroke.points f1 = Some [p1; p2] /\ Stroke.points f2 = Some [p4; p5] /\
       same_style f1 s /\ same_style f2 s).
Proof.
  split; [| split].
  - intros H. pose proof (fragments_all_skipped s H) as Hs. split; [exact Hs |].
    intros st before after Hst.
    rewrite createNewStrokesAfterErasing_strokes, Hst, flat_map_app. simpl.
    now rewrite Hs.
  - apply fragments_untouched.
  - intros p1 p2 p3 p4 p5 Hs H1 H2 H3 H4 H5.
    unfold fragments, Stroke.points_or_empty. rewrite Hs. simpl.
    rewrite H1, H2, H3, H4, H5. simpl.
    do 2 eexists. split; [reflexivity |]. repeat split.
Qed.

Lemma resegment_cases_witness :
  exists f1 f2,
    fragments (sampleStroke fivePoints) = [f1; f2] /\
    Stroke.points f1 = Some [Point 0 0; Point (1 # 4) (1 # 4)] /\
    Stroke.points f2 = Some [Point (3 # 4) (3 # 4); Point 1 1] /\
    same_style f1 (sampleStroke fivePoints) /\
    same_style f2 (sampleStroke fivePoints).
Proof.
  exact (proj2 (proj2 (resegment_cases (sampleStroke fivePoints)))
           _ _ _ _ _ eq_refl eq_refl eq_refl eq_refl eq_refl eq_refl).
Defined.

(** ** Marking *)

Lemma erasePoint_hit (cursor : PointI) (area : Q) (p : PointI) :
  hypot_sq (px p - px cursor) (py p - py cursor) <= area ->
  erasePoint cursor area p = mkPoint (px p) (py p) (Some true).
Proof.
  intros H. unfold erasePoint. apply Qle_bool_iff in H.
  unfold hypot_sq in H. now rewrite H.
Qed.


Lemma hypot_sq_zero (dx dy : Q) : hypot_sq dx dy <= 0 <-> dx == 0 /\ dy == 0.
Proof.
  unfold hypot_sq. split.
  - intros H. split; nra.
  - intros [Hx Hy]. rewrite Hx, Hy. lra.
Qed.

Lemma eraseStrokes_map (cursor : PointI) (area : Q) (l : list Stroke.t) :
  Forall has_points l ->
  eraseStrokes cursor area l = (map (markStroke cursor area) l, Ret tt).
Proof.
  induction 1 as [| s l Hs _ IH]; simpl; [reflexivity |].
  unfold has_points in Hs. unfold markStroke at 1.
  destruct (Stroke.points s); [| congruence].
  now rewrite IH.
Qed.

Lemma erasePoints_map (cursor : PointI) (st : Sketchpad) :
  Forall has_points (_strokes st) ->
  erasePoints cursor st =
  (set_strokes
     (map (markStroke cursor (eraserRadius st * eraserRadius st)) (_strokes st)) st,
   Ret tt).
Proof.
  intros H. unfold erasePoints. now rewrite eraseStrokes_map.
Qed.

Lemma markStroke_has_points (cursor : PointI) (area : Q) (l : list Stroke.t) :
  Forall has_points l -> Forall has_points (map (markStroke cursor area) l).
Proof.
  intros H. apply Forall_map. eapply Forall_impl; [| exact H].
  intros s Hs. unfold has_points, markStroke in *. simpl.
  destruct (Stroke.points s); [discriminate | congruence].
Qed.

(** ** The two arithmetics *)

Lemma Qle_bool_true (a b : Q) : a <= b -> Qle_bool a b = true.
Proof. apply Qle_bool_iff. Qed.

Lemma center_passes_exact (hypot pow : Q -> Q -> Q) :
  JS.center_passes (JS.exact hypot pow).
Proof.
  intros x y r. simpl. apply Qle_bool_true. nra.
Qed.







(** With exact arithmetic the marking pass is the one of the first part. *)
Lemma erasePoints_exact (hypot pow : Q -> Q -> Q) (cursor : PointI) (st : Sketchpad) :
  JS.erasePoints (JS.exact hypot pow) cursor st = erasePoints cursor st.
Proof.
  unfold JS.erasePoints, erasePoints.
  assert (E : forall a l, JS.eraseStrokes (JS.exact hypot pow) cursor a l =
                          eraseStrokes cursor a l).
  { intros a l. induction l as [| s l IH]; [reflexivity |].
    simpl. destruct (Stroke.points s); [| reflexivity]. now rewrite IH. }
  now rewrite E.
Qed.

(** ** Marking in the arithmetic of the language *)


Section MarkingFacts.
Variable A : JS.Arithmetic.

Lemma JS_erasePoint_test (cursor : PointI) (area : Q) (p : PointI) :
  JS.erasePoint A cursor area p = if passes A cursor area p then marked p else p.
Proof. reflexivity. Qed.

Lemma JS_eraseStrokes_map (cursor : PointI) (area : Q) (l : list Stroke.t) :
  Forall has_points l ->
  JS.eraseStrokes A cursor area l = (map (JS.markStroke A cursor area) l, Ret tt).
Proof.
  induction 1 as [| s l Hs _ IH]; simpl; [reflexivity |].
  unfold has_points in Hs. unfold JS.markStroke at 1.
  destruct (Stroke.points s); [| congruence].
  now rewrite IH.
Qed.

Lemma JS_erasePoints_map (cursor : PointI) (st : Sketchpad) :
  Forall has_points (_strokes st) ->
  JS.erasePoints A cursor st =
  (set_strokes
     (map (JS.markStroke A cursor
             (JS.mul A (JS.eraserRadius A st) (JS.eraserRadius A st)))
          (_strokes st)) st,
   Ret tt).
Proof.
  intros H. unfold JS.erasePoints. now rewrite JS_eraseStrokes_map.
Qed.

Lemma JS_markStroke_has_points (cursor : PointI) (area : Q) (l : list Stroke.t) :
  Forall has_points l -> Forall has_points (map (JS.markStroke A cursor area) l).
Proof.
  intros H. apply Forall_map. eapply Forall_impl; [| exact H].
  intros s Hs. unfold has_points, JS.markStroke in *. simpl.
  destruct (Stroke.points s); [discriminate | congruence].
Qed.

Lemma JS_erasePoint_idempotent (cursor : PointI) (area : Q) (p : PointI) :
  JS.erasePoint A cursor area (JS.erasePoint A cursor area p) =
  JS.erasePoint A cursor area p.
Proof.
  rewrite !JS_erasePoint_test. destruct (passes A cursor area p) eqn:E.
  - change (passes A cursor area (marked p)) with (passes A cursor area p).
    now rewrite E.
  - now rewrite E.
Qed.

Lemma JS_markStroke_idempotent (cursor : PointI) (area : Q) (s : Stroke.t) :
  JS.markStroke A cursor area (JS.markStroke A cursor area s) =
  JS.markStroke A cursor area s.
Proof.
  unfold JS.markStroke. simpl. destruct (Stroke.points s) as [ps |]; simpl; [| reflexivity].
  unfold Stroke.with_points. simpl. do 2 f_equal. rewrite map_map.
  apply map_ext. apply JS_erasePoint_idempotent.
Qed.

Lemma JS_all_points_markStroke (cursor : PointI) (area : Q) (l : list Stroke.t) :
  all_points (map (JS.markStroke A cursor area) l) =
  map (JS.erasePoint A cursor area) (all_points l).
Proof.
  unfold all_points. induction l as [| s l IH]; [reflexivity |].
  cbn [map flat_map]. rewrite map_app, IH. f_equal.
  unfold Stroke.points_or_empty, JS.markStroke. simpl.
  now destruct (Stroke.points s).
Qed.

End MarkingFacts.


(** ** Pointer events in eraser mode *)

(** C2, as stated, fails: a pointer-down in eraser mode on the second point
    of the stroke leaves that point in the stroke list, marked, and a
    pointer-move at the same place leaves it there again; the stroke is cut
    only by the pointer-up. *)
Lemma eraser_deferred_resegmentation_counterexample :
  let down := fst (startStrokeHandler (MouseEvent 50 50) eraserPad) in
  let moved := fst (drawStrokeHandler (MouseEvent 50 50) down) in
  let up := fst (endStrokeHandler (MouseEvent 50 50) moved) in
  _strokes down = [sampleStroke [Point 0 0; mkPoint (1 # 2) (1 # 2) (Some true)]] /\
  some_skipped (_strokes down) = true /\
  _strokes moved = _strokes down /\
  some_skipped (_strokes moved) = true /\
  _strokes up = [sampleStroke [Point 0 0]].
Proof. cbv zeta. repeat split. Qed.

(** C2, amended. In eraser mode, on a canvas of positive size and a
    document whose strokes all have a point array, a pointer-down and a pointer-move only mark points in place:
    the stroke list is the old one with [erasePoint] mapped over the points of
    each stroke, stroke for stroke.  Re-segmentation runs at the mouse-up
    (or mouse-leave) that ends the gesture, after which no point of the stroke
    list is marked. *)
Theorem eraser_marks_then_resegments_at_end (st : Sketchpad) :
  0 < canvas_width st -> 0 < canvas_height st ->
  isEraserActive st = true ->
  Forall has_points (_strokes st) ->
  let area := eraserRadius st * eraserRadius st in
  (forall e point,
     readOnly st = false ->
     getCursorRelativeToCanvas e st = Ret point ->
     startStrokeHandler e st =
       (set_strokes (map (markStroke point area) (_strokes st))
          (set_sketching true st), Ret tt)) /\
  (forall e point,
     sketching st = true ->
     getCursorRelativeToCanvas e st = Ret point ->
     drawStrokeHandler e st =
       (set_strokes (map (markStroke point area) (_strokes st)) st, Ret tt)) /\
  (forall x y,
     sketching st = true ->
     let point := Point (x / canvas_width st) (y / canvas_height st) in
     let st' := fst (endStrokeHandler (MouseEvent x y) st) in
     snd (endStrokeHandler (MouseEvent x y) st) = Ret tt /\
     _strokes st' = flat_map fragments (map (markStroke point area) (_strokes st)) /\
     no_skipped (_strokes st')).
Proof.
  intros _ _ Her Hall area. split; [| split].
  - intros e point Hro Hc. unfold startStrokeHandler. rewrite Hro.
    change (getCursorRelativeToCanvas e (set_sketching true st))
      with (getCursorRelativeToCanvas e st).
    rewrite Hc. unfold withValue.
    change (isEraserActive (set_sketching true st)) with (isEraserActive st).
    rewrite Her. now rewrite erasePoints_map.
  - intros e point Hsk Hc. unfold drawStrokeHandler. rewrite Hc. unfold withValue.
    rewrite Hsk, Her. simpl. now rewrite erasePoints_map.
  - intros x y Hsk point st'.
    assert (E : endStrokeHandler (MouseEvent x y) st =
                (createNewStrokesAfterErasing
                   (set_strokes (map (markStroke point area) (_strokes st))
                      (set_sketching false st)), Ret tt)).
    { unfold endStrokeHandler. rewrite Hsk. simpl.
      rewrite Her. now rewrite erasePoints_map. }
    subst st'. rewrite E. simpl. split; [reflexivity |]. split; [reflexivity |].
    apply (createNewStrokesAfterErasing_clean
             (set_strokes (map (markStroke point area) (_strokes st))
                (set_sketching false st))).
Qed.

Lemma eraser_marks_then_resegments_at_end_witness :
  startStrokeHandler (MouseEvent 50 50) eraserPad =
    (set_strokes
       (map (markStroke (Point (50 / 100) (50 / 100))
               (eraserRadius eraserPad * eraserRadius eraserPad))
          (_strokes eraserPad))
       (set_sketching true eraserPad), Ret tt) /\
  (let st := set_sketching true eraserPad in
   drawStrokeHandler (MouseEvent 50 50) st =
     (set_strokes
        (map (markStroke (Point (50 / 100) (50 / 100))
                (eraserRadius st * eraserRadius st)) (_strokes st)) st, Ret tt) /\
   snd (endStrokeHandler (MouseEvent 50 50) st) = Ret tt /\
   _strokes (fst (endStrokeHandler (MouseEvent 50 50) st)) =
     flat_map fragments
       (map (markStroke (Point (50 / 100) (50 / 100))
               (eraserRadius st * eraserRadius st)) (_strokes st)) /\
   no_skipped (_strokes (fst (endStrokeHandler (MouseEvent 50 50) st)))).
Proof.
  assert (Hall : Forall has_points (_strokes eraserPad))
    by (repeat constructor; discriminate).
  split.
  - exact (proj1 (eraser_marks_then_resegments_at_end eraserPad eq_refl eq_refl
                    eq_refl Hall)
             (MouseEvent 50 50) _ eq_refl eq_refl).
  - intros st. split.
    + exact (proj1 (proj2 (eraser_marks_then_resegments_at_end st eq_refl eq_refl
                           eq_refl Hall))
               (MouseEvent 50 50) _ eq_refl eq_refl).
    + exact (proj2 (proj2 (eraser_marks_then_resegments_at_end st eq_refl eq_refl
                           eq_refl Hall))
               50 50 eq_refl).
Defined.

(** ** The sample count *)

Section IntegerBounds.
Local Open Scope Z_scope.

Lemma ceil_div_bounds (m Y : Z) :
  0 < Y -> let n := - ((- m) / Y) in (n - 1) * Y < m <= n * Y.
Proof.
  intros HY n.
  pose proof (Z.mul_div_le (- m) Y HY) as H1.
  pose proof (Z.mul_succ_div_gt (- m) Y HY) as H2.
  subst n. split; nia.
Qed.

Lemma sqrt_up_bounds (X : Z) :
  let m := Z.sqrt_up X in
  0 <= m /\ X <= m * m /\ (0 < m -> (m - 1) * (m - 1) < X).
Proof.
  intros m. subst m. split; [apply Z.sqrt_up_nonneg |].
  destruct (Z.lt_ge_cases 0 X) as [H | H].
  - pose proof (Z.sqrt_up_spec X H) as [H1 H2].
    rewrite <- !Z.sub_1_r in H1. split; [exact H2 | intros _; exact H1].
  - rewrite (Z.sqrt_up_eqn0 X H). split; lia.
Qed.

Lemma max1_ceil_sqrt_div_Z (a b c d : Z) :
  0 <= a -> 0 < b -> 0 < c -> 0 < d ->
  let X := a * b * (d * d) in
  let Y := b * c in
  let n := Z.max 1 (- ((- Z.sqrt_up X) / Y)) in
  a * (d * d) <= (n * c) * (n * c) * b /\
  (1 < n -> ((n - 1) * c) * ((n - 1) * c) * b < a * (d * d)).
Proof.
  intros Ha Hb Hc Hd X Y n.
  assert (HY : 0 < Y) by (subst Y; nia).
  destruct (sqrt_up_bounds X) as (Hm0 & Hm1 & Hm2).
  destruct (ceil_div_bounds (Z.sqrt_up X) Y HY) as [Hn1 Hn2].
  set (m := Z.sqrt_up X) in *. set (n0 := - (- m / Y)) in *.
  assert (Hn0 : 0 <= n0) by nia.
  split.
  - assert (Hmn : m <= n * Y) by (subst n; nia).
    assert (HX : X <= (n * Y) * (n * Y)) by nia.
    apply (Z.mul_le_mono_pos_l _ _ b Hb). subst X Y. 
    replace (b * (a * (d * d))) with (a * b * (d * d)) by ring.
    replace (b * (n * c * (n * c) * b)) with (n * (b * c) * (n * (b * c))) by ring.
    exact HX.
  - intros Hn. assert (E : n = n0) by (subst n; lia). rewrite E in *.
    assert (H1 : (n0 - 1) * Y <= m - 1) by lia.
    assert (H0 : 0 <= (n0 - 1) * Y) by nia.
    assert (Hmpos : 0 < m) by lia.
    specialize (Hm2 Hmpos).
    assert (HX : ((n0 - 1) * Y) * ((n0 - 1) * Y) < X) by nia.
    apply (Z.mul_lt_mono_pos_l b _ _ Hb). subst X Y.
    replace (b * ((n0 - 1) * c * ((n0 - 1) * c) * b)) with ((n0 - 1) * (b * c) * ((n0 - 1) * (b * c))) by ring.
    replace (b * (a * (d * d))) with (a * b * (d * d)) by ring.
    exact HX.
Qed.
End IntegerBounds.

Lemma Qsq (q : Q) : q ^ 2 = q * q.
Proof. reflexivity. Qed.

Lemma max1_ceil_spec (s k : Q) :
  0 <= s -> 0 < k ->
  is_max1_ceil s k (Z.to_nat (Z.max 1 (ceil_sqrt_div s k))).
Proof.
  intros Hs Hk. unfold is_max1_ceil, ceil_sqrt_div.
  destruct s as [a b], k as [c d]. unfold Qle, Qlt in *. simpl in Hs, Hk.
  assert (Ha : (0 <= a)%Z) by lia. assert (Hc : (0 < c)%Z) by lia.
  destruct (max1_ceil_sqrt_div_Z a (Z.pos b) c (Z.pos d) Ha eq_refl Hc eq_refl)
    as [Hup Hlow].
  cbv zeta in Hup, Hlow. simpl Qnum. simpl Qden.
  set (n := Z.max 1 _) in *.
  assert (Hn : (1 <= n)%Z) by (subst n; lia).
  split; [lia |]. split.
  - rewrite Z2Nat.id by lia. simpl. rewrite Pos2Z.inj_mul.
    exact Hup.
  - intros H1. replace (Z.of_nat (Z.to_nat n - 1)) with (n - 1)%Z by lia.
    simpl. rewrite Pos2Z.inj_mul. apply Hlow. lia.
Qed.

Lemma is_max1_ceil_unique (s k : Q) (n n' : nat) :
  0 < k -> is_max1_ceil s k n -> is_max1_ceil s k n' -> n = n'.
Proof.
  assert (W : forall a b, 0 < k -> is_max1_ceil s k a -> is_max1_ceil s k b ->
                          (a < b)%nat -> False).
  { intros a b Hk (Ha1 & Ha2 & _) (Hb1 & _ & Hb3) Hlt.
    specialize (Hb3 ltac:(lia)).
    assert (H0 : 0 <= inject_Z (Z.of_nat a)).
    { change 0 with (inject_Z 0). rewrite <- Zle_Qle. lia. }
    assert (H1 : inject_Z (Z.of_nat a) <= inject_Z (Z.of_nat (b - 1))).
    { rewrite <- Zle_Qle. lia. }
    rewrite Qsq in *.
    set (x := inject_Z (Z.of_nat a)) in *.
    set (y := inject_Z (Z.of_nat (b - 1))) in *.
    assert (Hx : 0 <= x * k) by nra.
    assert (Hxy : x * k <= y * k) by nra.
    nra. }
  intros Hk Hn Hn'.
  destruct (Nat.lt_trichotomy n n') as [H | [H | H]]; [| exact H |];
    exfalso; eauto.
Qed.

(** ** The interpolation loop and the smoothing construction *)

Lemma numIntervals_positive (s k : Q) :
  0 < k -> numIntervals s k = Ret (Z.to_nat (Z.max 1 (ceil_sqrt_div s k))).
Proof.
  intros Hk. unfold numIntervals.
  destruct (Qle_bool k 0) eqn:E; [| reflexivity].
  apply Qle_bool_iff in E. lra.
Qed.

Section InterpolationFacts.
Variables (cw ch k : Q).
Hypothesis Hk : 0 < k.

Lemma arcPoints_positive (o c d : PointI) :
  arcPoints cw ch o c d k = Ret (arcOutput cw ch k (o, c, d)).
Proof.
  unfold arcPoints. now rewrite numIntervals_positive.
Qed.

Lemma at_index_middle (A : Type) (done : list A) (a : A) (rest : list A) :
  at_index (done ++ a :: rest) (List.length done) = Ret a.
Proof.
  unfold at_index. rewrite nth_error_app2 by lia.
  now rewrite Nat.sub_diag.
Qed.

(** The loop of the source, started at index [j] with [P_(j-1) = prev] and
    [P_j = c], appends the outputs of the arcs around [c :: rest]. *)
Lemma arc_loop (rest : list PointI) :
  forall (done : list PointI) (prev c : PointI) (out : list PointI),
  exists dest,
    fold_left (arcStep cw ch (done ++ prev :: c :: rest) k)
      (seq (S (List.length done)) (List.length rest))
      (Ret (midPoint prev c, out)) =
    Ret (dest, out ++ flat_map (arcOutput cw ch k) (smooth_arcs prev (c :: rest))).
Proof.
  induction rest as [| n rest IH]; intros done prev c out.
  - exists (midPoint prev c). simpl. now rewrite app_nil_r.
  - cbn [List.length seq fold_left].
    assert (Hc : at_index (done ++ prev :: c :: n :: rest) (S (List.length done)) = Ret c).
    { replace (S (List.length done)) with (List.length (done ++ [prev]))
        by (rewrite length_app; simpl; lia).
      replace (done ++ prev :: c :: n :: rest) with ((done ++ [prev]) ++ c :: n :: rest)
        by now rewrite <- app_assoc.
      apply at_index_middle. }
    assert (Hn : at_index (done ++ prev :: c :: n :: rest) (S (List.length done) + 1) = Ret n).
    { replace (S (List.length done) + 1)%nat with (List.length (done ++ [prev; c]))
        by (rewrite length_app; simpl; lia).
      replace (done ++ prev :: c :: n :: rest) with ((done ++ [prev; c]) ++ n :: rest)
        by now rewrite <- app_assoc.
      apply at_index_middle. }
    unfold arcStep at 2. cbn [obind fst snd]. rewrite Hc, Hn. cbn [obind].
    rewrite arcPoints_positive. cbn [obind].
    destruct (IH (done ++ [prev]) c n
                (out ++ arcOutput cw ch k (midPoint prev c, c, midPoint c n)))
      as [dest Hd].
    exists dest.
    replace (done ++ prev :: c :: n :: rest) with ((done ++ [prev]) ++ c :: n :: rest)
      by now rewrite <- app_assoc.
    replace (S (S (List.length done))) with (S (List.length (done ++ [prev])))
      by (rewrite length_app; simpl; lia).
    rewrite Hd. f_equal. f_equal.
    change (smooth_arcs prev (c :: n :: rest))
      with ((midPoint prev c, c, midPoint c n) :: smooth_arcs c (n :: rest)).
    cbn [flat_map]. now rewrite app_assoc.
Qed.

(** The stroke the source returns, in closed form. *)
Lemma interpolate_closed_form (stroke : Stroke.t) (p0 : PointI) (rest : list PointI) :
  Stroke.points_or_empty stroke = p0 :: rest ->
  interpolateExistingShapePaths cw ch stroke k =
  Ret (Stroke.mk
         (Some (xy (px p0 * cw / cw) (py p0 * ch / ch) ::
                flat_map (arcOutput cw ch k) (arcs (map (toPixels cw ch) (p0 :: rest)))))
         (Stroke.width stroke) (Stroke.color stroke) (Stroke.cap stroke)
         (Stroke.join stroke) (Stroke.miterLimit stroke) (Some true)).
Proof.
  intros Hp. unfold interpolateExistingShapePaths. rewrite Hp.
  destruct rest as [| p1 rest].
  - reflexivity.
  - cbn [map at_index nth_error obind List.length Nat.ltb Nat.leb].
    rewrite arcPoints_positive. cbn [obind].
    destruct (arc_loop (map (toPixels cw ch) rest) [] (toPixels cw ch p0)
                (toPixels cw ch p1)
                ([xy (px (toPixels cw ch p0) / cw) (py (toPixels cw ch p0) / ch)] ++
                 arcOutput cw ch k
                   (toPixels cw ch p0, toPixels cw ch p0,
                    midPoint (toPixels cw ch p0) (toPixels cw ch p1))))
      as [dest Hd].
    cbn [app List.length] in Hd.
    replace (S (S (List.length (map (toPixels cw ch) rest))) - 1 - 1)%nat
      with (List.length (map (toPixels cw ch) rest)) by lia.
    cbn [app]. rewrite Hd. cbn [obind snd]. reflexivity.
Qed.
End InterpolationFacts.

(** ** The arcs, by index *)

Lemma smooth_arcs_nth (l : list PointI) :
  forall (prev : PointI) (j : nat) (a b c : PointI),
  nth_error (prev :: l) j = Some a ->
  nth_error (prev :: l) (S j) = Some b ->
  nth_error (prev :: l) (S (S j)) = Some c ->
  nth_error (smooth_arcs prev l) j = Some (midPoint a b, b, midPoint b c).
Proof.
  induction l as [| pj tl IH]; intros prev j a b c Ha Hb Hc.
  - destruct j; discriminate Hb.
  - destruct tl as [| pj1 tl].
    + destruct j as [| [| j]]; discriminate Hc.
    + change (smooth_arcs prev (pj :: pj1 :: tl))
        with ((midPoint prev pj, pj, midPoint pj pj1) :: smooth_arcs pj (pj1 :: tl)).
      destruct j as [| j].
      * simpl in Ha, Hb, Hc. now inversion Ha; inversion Hb; inversion Hc.
      * cbn [nth_error]. apply IH; assumption.
Qed.

Lemma smooth_arcs_length (l : list PointI) :
  forall prev, List.length (smooth_arcs prev l) = (List.length l - 1)%nat.
Proof.
  induction l as [| pj tl IH]; intros prev; [reflexivity |].
  destruct tl as [| pj1 tl]; [reflexivity |].
  change (smooth_arcs prev (pj :: pj1 :: tl))
    with ((midPoint prev pj, pj, midPoint pj pj1) :: smooth_arcs pj (pj1 :: tl)).
  cbn [List.length]. rewrite IH. simpl. lia.
Qed.

Lemma arcs_first (raw : list PointI) (a b : PointI) :
  nth_error raw 0 = Some a -> nth_error raw 1 = Some b ->
  nth_error (arcs raw) 0 = Some (a, a, midPoint a b).
Proof.
  destruct raw as [| p0 [| p1 tl]]; try discriminate.
  simpl. intros Ha Hb. now inversion Ha; inversion Hb.
Qed.

Lemma arcs_next (raw : list PointI) (j : nat) (a b c : PointI) :
  nth_error raw j = Some a ->
  nth_error raw (S j) = Some b ->
  nth_error raw (S (S j)) = Some c ->
  nth_error (arcs raw) (S j) = Some (midPoint a b, b, midPoint b c).
Proof.
  destruct raw as [| p0 [| p1 tl]].
  - destruct j; discriminate.
  - destruct j; discriminate.
  - intros Ha Hb Hc. unfold arcs. cbn [nth_error].
    now apply smooth_arcs_nth.
Qed.

Lemma arcs_length (raw : list PointI) :
  List.length (arcs raw) = (List.length raw - 1)%nat.
Proof.
  destruct raw as [| p0 [| p1 tl]]; try reflexivity.
  unfold arcs. cbn [List.length]. rewrite smooth_arcs_length. simpl. lia.
Qed.

(** ** Samples of one arc *)

Lemma arcOutput_length (cw ch k : Q) (a : arc) :
  List.length (arcOutput cw ch k a) = sampleCount a k.
Proof.
  unfold arcOutput, arcSamples. now rewrite !length_map, length_seq.
Qed.


Lemma arcOutput_skipped (cw ch k : Q) (a : arc) :
  Forall (fun p => skipped p = Some false) (arcOutput cw ch k a).
Proof.
  unfold arcOutput. apply Forall_map. apply Forall_forall. reflexivity.
Qed.

Lemma hypot_sq_nonneg (dx dy : Q) : 0 <= hypot_sq dx dy.
Proof. unfold hypot_sq. nra. Qed.

Lemma sampleCount_spec (a : arc) (k : Q) :
  0 < k -> is_max1_ceil (chord_sq a) k (sampleCount a k).
Proof.
  intros Hk. apply max1_ceil_spec; [apply hypot_sq_nonneg | exact Hk].
Qed.

(** ** The interpolator in the arithmetic of the language *)

Section JSInterpolationFacts.
Variable A : JS.Arithmetic.
Variables (cw ch k : Q).

(** The loop of the source, started at index [j] with [P_(j-1) = prev] and
    [P_j = c], appends the outputs of the arcs around [c :: rest]. *)
Lemma JS_arc_loop (rest : list PointI) :
  forall (done : list PointI) (prev c : PointI) (out : list PointI),
  exists dest,
    fold_left (JS.arcStep A cw ch (done ++ prev :: c :: rest) k)
      (seq (S (List.length done)) (List.length rest))
      (Ret (JS.midPoint A prev c, out)) =
    Ret (dest,
         out ++ flat_map (JS.arcOutput A cw ch k) (JS.smooth_arcs A prev (c :: rest))).
Proof.
  induction rest as [| n rest IH]; intros done prev c out.
  - exists (JS.midPoint A prev c). simpl. now rewrite app_nil_r.
  - cbn [List.length seq fold_left].
    assert (Hc : at_index (done ++ prev :: c :: n :: rest) (S (List.length done)) = Ret c).
    { replace (S (List.length done)) with (List.length (done ++ [prev]))
        by (rewrite length_app; simpl; lia).
      replace (done ++ prev :: c :: n :: rest) with ((done ++ [prev]) ++ c :: n :: rest)
        by now rewrite <- app_assoc.
      apply at_index_middle. }
    assert (Hn : at_index (done ++ prev :: c :: n :: rest) (S (List.length done) + 1) = Ret n).
    { replace (S (List.length done) + 1)%nat with (List.length (done ++ [prev; c]))
        by (rewrite length_app; simpl; lia).
      replace (done ++ prev :: c :: n :: rest) with ((done ++ [prev; c]) ++ n :: rest)
        by now rewrite <- app_assoc.
      apply at_index_middle. }
    unfold JS.arcStep at 2. cbn [obind fst snd]. rewrite Hc, Hn. cbn [obind].
    destruct (IH (done ++ [prev]) c n
                (out ++ JS.arcOutput A cw ch k
                          (JS.midPoint A prev c, c, JS.midPoint A c n)))
      as [dest Hd].
    exists dest.
    replace (done ++ prev :: c :: n :: rest) with ((done ++ [prev]) ++ c :: n :: rest)
      by now rewrite <- app_assoc.
    replace (S (S (List.length done))) with (S (List.length (done ++ [prev])))
      by (rewrite length_app; simpl; lia).
    unfold JS.arcOutput at 1 in Hd. cbn [arc_origin arc_control arc_destination fst snd] in Hd.
    rewrite Hd. f_equal. f_equal.
    change (JS.smooth_arcs A prev (c :: n :: rest))
      with ((JS.midPoint A prev c, c, JS.midPoint A c n) :: JS.smooth_arcs A c (n :: rest)).
    cbn [flat_map]. now rewrite app_assoc.
Qed.

(** The stroke the source returns, in closed form. *)
Lemma JS_interpolate_closed_form (stroke : Stroke.t) (p0 : PointI) (rest : list PointI) :
  Stroke.points_or_empty stroke = p0 :: rest ->
  JS.interpolateExistingShapePaths A cw ch stroke k =
  Ret (Stroke.mk
         (Some (xy (JS.div A (JS.mul A (px p0) cw) cw) (JS.div A (JS.mul A (py p0) ch) ch) ::
                flat_map (JS.arcOutput A cw ch k)
                  (JS.arcs A (map (JS.toPixels A cw ch) (p0 :: rest)))))
         (Stroke.width stroke) (Stroke.color stroke) (Stroke.cap stroke)
         (Stroke.join stroke) (Stroke.miterLimit stroke) (Some true)).
Proof.
  intros Hp. unfold JS.interpolateExistingShapePaths. rewrite Hp.
  destruct rest as [| p1 rest].
  - reflexivity.
  - cbn [map at_index nth_error obind List.length Nat.ltb Nat.leb].
    destruct (JS_arc_loop (map (JS.toPixels A cw ch) rest) [] (JS.toPixels A cw ch p0)
                (JS.toPixels A cw ch p1)
                ([xy (JS.div A (px (JS.toPixels A cw ch p0)) cw)
                     (JS.div A (py (JS.toPixels A cw ch p0)) ch)] ++
                 JS.arcOutput A cw ch k
                   (JS.toPixels A cw ch p0, JS.toPixels A cw ch p0,
                    JS.midPoint A (JS.toPixels A cw ch p0) (JS.toPixels A cw ch p1))))
      as [dest Hd].
    cbn [app List.length] in Hd.
    replace (S (S (List.length (map (JS.toPixels A cw ch) rest))) - 1 - 1)%nat
      with (List.length (map (JS.toPixels A cw ch) rest)) by lia.
    cbn [app].
    unfold JS.arcOutput at 1 in Hd. cbn [arc_origin arc_control arc_destination fst snd] in Hd.
    rewrite Hd. cbn [obind snd]. reflexivity.
Qed.

Lemma JS_smooth_arcs_nth (l : list PointI) :
  forall (prev : PointI) (j : nat) (a b c : PointI),
  nth_error (prev :: l) j = Some a ->
  nth_error (prev :: l) (S j) = Some b ->
  nth_error (prev :: l) (S (S j)) = Some c ->
  nth_error (JS.smooth_arcs A prev l) j = Some (JS.midPoint A a b, b, JS.midPoint A b c).
Proof.
  induction l as [| pj tl IH]; intros prev j a b c Ha Hb Hc.
  - destruct j; discriminate Hb.
  - destruct tl as [| pj1 tl].
    + destruct j as [| [| j]]; discriminate Hc.
    + change (JS.smooth_arcs A prev (pj :: pj1 :: tl))
        with ((JS.midPoint A prev pj, pj, JS.midPoint A pj pj1) ::
              JS.smooth_arcs A pj (pj1 :: tl)).
      destruct j as [| j].
      * simpl in Ha, Hb, Hc. now inversion Ha; inversion Hb; inversion Hc.
      * cbn [nth_error]. apply IH; assumption.
Qed.

Lemma JS_smooth_arcs_length (l : list PointI) :
  forall prev, List.length (JS.smooth_arcs A prev l) = (List.length l - 1)%nat.
Proof.
  induction l as [| pj tl IH]; intros prev; [reflexivity |].
  destruct tl as [| pj1 tl]; [reflexivity |].
  change (JS.smooth_arcs A prev (pj :: pj1 :: tl))
    with ((JS.midPoint A prev pj, pj, JS.midPoint A pj pj1) ::
          JS.smooth_arcs A pj (pj1 :: tl)).
  cbn [List.length]. rewrite IH. simpl. lia.
Qed.

Lemma JS_arcs_first (raw : list PointI) (a b : PointI) :
  nth_error raw 0 = Some a -> nth_error raw 1 = Some b ->
  nth_error (JS.arcs A raw) 0 = Some (a, a, JS.midPoint A a b).
Proof.
  destruct raw as [| p0 [| p1 tl]]; try discriminate.
  simpl. intros Ha Hb. now inversion Ha; inversion Hb.
Qed.

Lemma JS_arcs_next (raw : list PointI) (j : nat) (a b c : PointI) :
  nth_error raw j = Some a ->
  nth_error raw (S j) = Some b ->
  nth_error raw (S (S j)) = Some c ->
  nth_error (JS.arcs A raw) (S j) = Some (JS.midPoint A a b, b, JS.midPoint A b c).
Proof.
  destruct raw as [| p0 [| p1 tl]].
  - destruct j; discriminate.
  - destruct j; discriminate.
  - intros Ha Hb Hc. unfold JS.arcs. cbn [nth_error].
    now apply JS_smooth_arcs_nth.
Qed.

Lemma JS_arcs_length (raw : list PointI) :
  List.length (JS.arcs A raw) = (List.length raw - 1)%nat.
Proof.
  destruct raw as [| p0 [| p1 tl]]; try reflexivity.
  unfold JS.arcs. cbn [List.length]. rewrite JS_smooth_arcs_length. simpl. lia.
Qed.

Lemma JS_arcOutput_length (a : arc) :
  List.length (JS.arcOutput A cw ch k a) = JS.sampleCount A a k.
Proof.
  unfold JS.arcOutput, JS.arcPoints, JS.interpolateQuadraticCurve.
  now rewrite !length_map, length_seq.
Qed.

Lemma JS_sampleCount_pos (a : arc) : (1 <= JS.sampleCount A a k)%nat.
Proof. unfold JS.sampleCount, JS.numIntervals. lia. Qed.

Lemma JS_arcOutput_skipped (a : arc) :
  Forall (fun p => skipped p = Some false) (JS.arcOutput A cw ch k a).
Proof.
  unfold JS.arcOutput, JS.arcPoints. apply Forall_map. apply Forall_forall. reflexivity.
Qed.

(** C5. On a canvas of positive size and for a positive interval [k] the
    interpolator returns the first point followed by the samples of the
    arcs, arc after arc, whatever the rounding of the arithmetic.  A raw
    point [(x, y)] has the pixel position [(x * width, y * height)].  Arc 0
    runs from the pixel position of the first raw point, which is also its
    control point, to the midpoint [((xa + xb) / 2, (ya + yb) / 2)] of the
    pixel positions of the first two raw points; arc [j + 1] runs from the
    midpoint of the pixel positions of raw points [j], [j + 1] to the
    midpoint of those of raw points [j + 1], [j + 2], with the pixel position
    of raw point [j + 1] as control point.  An arc contributes
    [n = max(1, ceil(L / k))] points, [L] being [Math.hypot] of the
    differences of its end points in pixels, and its [i]-th point, for
    [0 <= i < n], is [(1 - t)^2 origin + 2 (1 - t) t control + t^2 destination]
    at [t = i / n], divided by the canvas size. *)
Theorem interpolation_samples_per_arc
    (stroke : Stroke.t) (p0 : PointI) (rest : list PointI) :
  0 < cw -> 0 < ch -> 0 < k ->
  Stroke.points_or_empty stroke = p0 :: rest ->
  let raw := p0 :: rest in
  let X := fun p : PointI => JS.mul A (px p) cw in
  let Y := fun p : PointI => JS.mul A (py p) ch in
  let mid := fun u v : Q => JS.div A (JS.add A u v) 2 in
  let L := fun a : arc =>
    JS.Math_hypot A (JS.sub A (px (arc_destination a)) (px (arc_origin a)))
                    (JS.sub A (py (arc_destination a)) (py (arc_origin a))) in
  let n := fun a : arc => Z.to_nat (Z.max 1 (Qceiling (JS.div A (L a) k))) in
  let B := fun t o c d : Q =>
    JS.add A
      (JS.add A (JS.mul A (JS.Math_pow A (JS.sub A 1 t) 2) o)
                (JS.mul A (JS.mul A (JS.mul A 2 (JS.sub A 1 t)) t) c))
      (JS.mul A (JS.Math_pow A t 2) d) in
  let sample := fun (a : arc) (i : nat) =>
    let t := JS.div A (inject_Z (Z.of_nat i)) (inject_Z (Z.of_nat (n a))) in
    mkPoint
      (JS.div A (B t (px (arc_origin a)) (px (arc_control a)) (px (arc_destination a))) cw)
      (JS.div A (B t (py (arc_origin a)) (py (arc_control a)) (py (arc_destination a))) ch)
      (Some false) in
  exists (out : Stroke.t) (first : PointI) (arcsL : list arc),
    JS.interpolateExistingShapePaths A cw ch stroke k = Ret out /\
    Stroke.points out =
      Some (first :: flat_map (fun a => map (sample a) (seq 0 (n a))) arcsL) /\
    List.length arcsL = List.length rest /\
    (forall a, (1 <= n a)%nat) /\
    (forall a b, nth_error raw 0 = Some a -> nth_error raw 1 = Some b ->
       exists o c d, nth_error arcsL 0 = Some (o, c, d) /\
         (px o = X a /\ py o = Y a) /\
         (px c = X a /\ py c = Y a) /\
         (px d = mid (X a) (X b) /\ py d = mid (Y a) (Y b))) /\
    (forall j a b c',
       nth_error raw j = Some a -> nth_error raw (S j) = Some b ->
       nth_error raw (S (S j)) = Some c' ->
       exists o c d, nth_error arcsL (S j) = Some (o, c, d) /\
         (px o = mid (X a) (X b) /\ py o = mid (Y a) (Y b)) /\
         (px c = X b /\ py c = Y b) /\
         (px d = mid (X b) (X c') /\ py d = mid (Y b) (Y c'))).
Proof.
  intros _ _ _ Hp raw X Y mid L n B sample.
  eexists. exists (xy (JS.div A (JS.mul A (px p0) cw) cw) (JS.div A (JS.mul A (py p0) ch) ch)).
  exists (JS.arcs A (map (JS.toPixels A cw ch) raw)).
  split; [apply (JS_interpolate_closed_form stroke p0 rest Hp) |].
  split.
  { cbn [Stroke.points]. do 2 f_equal. apply flat_map_ext. intros a.
    unfold JS.arcOutput, JS.arcPoints, JS.interpolateQuadraticCurve.
    rewrite map_map. reflexivity. }
  split; [rewrite JS_arcs_length; subst raw; rewrite length_map; simpl; lia |].
  split; [intros a; subst n; simpl; lia |].
  split.
  - intros a b Ha Hb.
    exists (JS.toPixels A cw ch a), (JS.toPixels A cw ch a),
           (JS.midPoint A (JS.toPixels A cw ch a) (JS.toPixels A cw ch b)).
    split; [| repeat split].
    apply JS_arcs_first; rewrite nth_error_map; [now rewrite Ha | now rewrite Hb].
  - intros j a b c' Ha Hb Hc.
    exists (JS.midPoint A (JS.toPixels A cw ch a) (JS.toPixels A cw ch b)),
           (JS.toPixels A cw ch b),
           (JS.midPoint A (JS.toPixels A cw ch b) (JS.toPixels A cw ch c')).
    split; [| repeat split].
    apply JS_arcs_next; rewrite nth_error_map;
      [now rewrite Ha | now rewrite Hb | now rewrite Hc].
Qed.
End JSInterpolationFacts.

(** In doubles, the stroke from (0, 0) to the pixel (28, 0) has one arc; it
    ends just right of the pixel 14, its chord exceeds 14, and it contributes
    8 samples, which makes 9 points. *)
Lemma interpolation_samples_per_arc_witness :
  exists (out : Stroke.t) (arcsL : list arc),
    JS.interpolateExistingShapePaths JS.binary64 100 100 shortStroke 2 = Ret out /\
    List.length arcsL = 1%nat /\
    (exists o c d, nth_error arcsL 0 = Some (o, c, d) /\
       px o = 0 /\ px c = 0 /\ 14 < px d /\ py d = 0) /\
    option_map (@List.length PointI) (Stroke.points out) = Some 9%nat.
Proof.
  destruct (interpolation_samples_per_arc JS.binary64 100 100 2 shortStroke
              (Point 0 0) [Point (JS.div JS.binary64 28 100) 0]
              eq_refl eq_refl eq_refl eq_refl)
    as (out & first & arcsL & Hrun & _ & Hlen & _ & Hfirst & _).
  exists out, arcsL. split; [exact Hrun |]. split; [exact Hlen |]. split.
  - destruct (Hfirst _ _ eq_refl eq_refl) as (o & c & d & H0 & [Ho _] & [Hc _] & [Hd Hd']).
    exists o, c, d. split; [exact H0 |].
    rewrite Ho, Hc, Hd, Hd'. vm_compute. repeat split.
  - vm_compute in Hrun. injection Hrun as <-. reflexivity.
Defined.

(** C6. On a canvas of positive width and height the first point of the
    interpolated stroke has the coordinates of the first raw point; a raw
    stroke of exactly one point gives an output of that single point, for
    any interval. *)
Theorem interpolation_starts_at_first_point
    (cw ch k : Q) (stroke : Stroke.t) (p0 : PointI) (rest : list PointI) :
  0 < cw -> 0 < ch ->
  Stroke.points_or_empty stroke = p0 :: rest ->
  (0 < k ->
   exists out first tail,
     interpolateExistingShapePaths cw ch stroke k = Ret out /\
     Stroke.points out = Some (first :: tail) /\
     px first == px p0 /\ py first == py p0) /\
  (rest = [] ->
   exists out first,
     interpolateExistingShapePaths cw ch stroke k = Ret out /\
     Stroke.points out = Some [first] /\
     px first == px p0 /\ py first == py p0).
Proof.
  intros Hw Hh Hp. split.
  - intros Hk. do 3 eexists.
    split; [apply (interpolate_closed_form cw ch k Hk stroke p0 rest Hp) |].
    split; [reflexivity |].
    simpl. split; field; lra.
  - intros ->. unfold interpolateExistingShapePaths. rewrite Hp. simpl.
    do 2 eexists. split; [reflexivity |]. split; [reflexivity |].
    simpl. split; field; lra.
Qed.

Lemma interpolation_starts_at_first_point_witness :
  (exists out first tail,
     interpolateExistingShapePaths 100 100 twoPointStroke 2 = Ret out /\
     Stroke.points out = Some (first :: tail) /\
     px first == 0 /\ py first == 0) /\
  (exists out first,
     interpolateExistingShapePaths 100 100 onePointStroke 2 = Ret out /\
     Stroke.points out = Some [first] /\
     px first == 1 # 4 /\ py first == 3 # 4).
Proof.
  split.
  - exact (proj1 (interpolation_starts_at_first_point 100 100 2 twoPointStroke
                    (Point 0 0) [Point (1 # 2) (1 # 2)] eq_refl eq_refl eq_refl)
             eq_refl).
  - exact (proj2 (interpolation_starts_at_first_point 100 100 2 onePointStroke
                    (Point (1 # 4) (3 # 4)) [] eq_refl eq_refl eq_refl)
             eq_refl).
Defined.

(** C10. For a raw stroke of at least two points and a positive interval,
    the first point of the interpolated stroke has no [skipped] property,
    while the points after it, of which there is at least one, all have
    [skipped = false]. *)
Theorem interpolation_first_point_lacks_skipped
    (cw ch k : Q) (stroke : Stroke.t) (p0 p1 : PointI) (rest : list PointI) :
  0 < k ->
  Stroke.points_or_empty stroke = p0 :: p1 :: rest ->
  exists out first tail,
    interpolateExistingShapePaths cw ch stroke k = Ret out /\
    Stroke.points out = Some (first :: tail) /\
    skipped first = None /\
    tail <> [] /\
    Forall (fun p => skipped p = Some false) tail.
Proof.
  intros Hk Hp. do 3 eexists.
  split; [apply (interpolate_closed_form cw ch k Hk stroke p0 (p1 :: rest) Hp) |].
  split; [reflexivity |]. split; [reflexivity |]. split.
  - cbn [map arcs flat_map]. intros H.
    apply (f_equal (@List.length PointI)) in H.
    rewrite length_app, arcOutput_length in H.
    pose proof (sampleCount_spec
                  (toPixels cw ch p0, toPixels cw ch p0,
                   midPoint (toPixels cw ch p0) (toPixels cw ch p1)) k Hk) as [H1 _].
    simpl in H. lia.
  - induction (arcs _) as [| a l IH]; [constructor |].
    cbn [flat_map]. apply Forall_app. split; [apply arcOutput_skipped | exact IH].
Qed.

Lemma interpolation_first_point_lacks_skipped_witness :
  exists out first tail,
    interpolateExistingShapePaths 100 100 twoPointStroke 2 = Ret out /\
    Stroke.points out = Some (first :: tail) /\
    skipped first = None /\
    tail <> [] /\
    Forall (fun p => skipped p = Some false) tail.
Proof.
  exact (interpolation_first_point_lacks_skipped 100 100 2 twoPointStroke
           (Point 0 0) (Point (1 # 2) (1 # 2)) [] eq_refl eq_refl).
Defined.

(** ** Finishing a drawn stroke *)

Lemma interpolated_unmarked (cw ch k : Q) (l : list arc) :
  Forall (fun p => is_skipped p = false) (flat_map (arcOutput cw ch k) l).
Proof.
  induction l as [| a l IH]; [constructor |].
  cbn [flat_map]. apply Forall_app. split; [| exact IH].
  eapply Forall_impl; [| apply arcOutput_skipped].
  intros p Hp. unfold is_skipped. now rewrite Hp.
Qed.

Lemma pushPoint_last (point : PointI) (st : Sketchpad)
    (before : list Stroke.t) (s : Stroke.t) (ps : list PointI) :
  _strokes st = push before s ->
  Stroke.points s = Some ps ->
  pushPoint point st =
  (set_strokes (push before (Stroke.with_points s (Some (push ps point)))) st, Ret tt).
Proof.
  intros Hst Hs. unfold pushPoint. now rewrite Hst, pop_push, Hs.
Qed.

Lemma createNewStrokesAfterInterpolation_last (k : Q) (st : Sketchpad)
    (before : list Stroke.t) (s new : Stroke.t) :
  _strokes st = push before s ->
  interpolateExistingShapePaths (canvas_width st) (canvas_height st) s k = Ret new ->
  createNewStrokesAfterInterpolation (last_stroke st) k st =
  (set_strokes (push before new) st, Ret tt).
Proof.
  intros Hst Hint. unfold createNewStrokesAfterInterpolation, last_stroke.
  rewrite Hst, pop_push. cbn [fst snd].
  change (canvas_width (set_strokes before st)) with (canvas_width st).
  change (canvas_height (set_strokes before st)) with (canvas_height st).
  now rewrite Hint.
Qed.

(** In draw mode the mouse-up appends the last point, replaces the last
    stroke by its interpolation at interval 2 and re-segments the document;
    the new stroke has no marked point and comes out as it went in. *)
Lemma endStrokeHandler_draw (st : Sketchpad) (x y : Q)
    (before : list Stroke.t) (s : Stroke.t) (ps : list PointI) :
  sketching st = true ->
  isEraserActive st = false ->
  _strokes st = before ++ [s] ->
  Stroke.points s = Some ps ->
  let point := Point (x / canvas_width st) (y / canvas_height st) in
  exists new,
    interpolateExistingShapePaths (canvas_width st) (canvas_height st)
      (Stroke.with_points s (Some (ps ++ [point]))) 2 = Ret new /\
    endStrokeHandler (MouseEvent x y) st =
      (set_strokes (flat_map fragments before ++ [new]) (set_sketching false st),
       Ret tt).
Proof.
  intros Hsk Her Hst Hs point.
  assert (Hne : exists p0 rest, ps ++ [point] = p0 :: rest).
  { destruct ps as [| p0 ps]; simpl; eauto. }
  destruct Hne as (p0 & rest & Hps).
  pose proof (interpolate_closed_form (canvas_width st) (canvas_height st) 2
                eq_refl (Stroke.with_points s (Some (ps ++ [point]))) p0 rest Hps)
    as Hint.
  eexists. split; [exact Hint |].
  unfold endStrokeHandler. rewrite Hsk. cbn [negb isTouchEvent].
  cbn [getCursorRelativeToCanvas obind withValue px py Point].
  change (isEraserActive (set_sketching false st)) with (isEraserActive st).
  rewrite Her.
  rewrite (pushPoint_last _ (set_sketching false st) before s ps Hst Hs).
  unfold andThen at 2. cbn [fst snd].
  erewrite createNewStrokesAfterInterpolation_last;
    [| reflexivity | exact Hint].
  unfold andThen. cbn [fst snd]. f_equal.
  unfold createNewStrokesAfterErasing, deepClone. cbn [_strokes set_strokes].
  unfold push. rewrite flat_map_app. cbn [flat_map]. rewrite app_nil_r.
  erewrite fragments_untouched; [reflexivity | reflexivity | discriminate |].
  constructor; [reflexivity | apply interpolated_unmarked].
Qed.

(** * Further properties of the code *)

(** ** Serialization *)

Lemma fromObj_toObj (s : Stroke.t) : Stroke.fromObj (Stroke.toObj s) = s.
Proof. now destruct s. Qed.

Lemma toObj_fromObj (o : StrokeI.t) : Stroke.toObj (Stroke.fromObj o) = o.
Proof. now destruct o. Qed.

Lemma strokes_toObj (st : Sketchpad) : strokes st = map Stroke.toObj (_strokes st).
Proof. reflexivity. Qed.

Lemma map_fromObj_toObj (l : list Stroke.t) :
  map Stroke.fromObj (map Stroke.toObj l) = l.
Proof.
  rewrite map_map. rewrite <- (map_id l) at 2.
  apply map_ext. apply fromObj_toObj.
Qed.

Lemma set_strokes_same (st : Sketchpad) : set_strokes (_strokes st) st = st.
Proof. now destruct st. Qed.

(** X1. Export followed by import gives the stroke list back: loading the
    record of [toJSON] into any pad installs the exported stroke list, loading
    it into the exporting pad changes nothing, and the record exported after
    an import holds the imported strokes. *)
Theorem loadJSON_toJSON_roundtrip (st other : Sketchpad) :
  _strokes (loadJSON (toJSON st) other) = _strokes st /\
  loadJSON (toJSON st) st = st /\
  (forall l ratio,
     DataI.strokes (toJSON (loadJSON (DataI.mk ratio (Some l)) other)) = Some l).
Proof.
  assert (H : forall o, _strokes (loadJSON (toJSON st) o) = _strokes st).
  { intros o. unfold loadJSON, toJSON. simpl. rewrite strokes_toObj.
    apply map_fromObj_toObj. }
  split; [apply H |]. split.
  - unfold loadJSON, toJSON. simpl. rewrite strokes_toObj, map_fromObj_toObj.
    apply set_strokes_same.
  - intros l ratio. unfold toJSON, loadJSON. simpl. f_equal.
    rewrite strokes_toObj. simpl. rewrite map_map.
    rewrite <- (map_id l) at 2. apply map_ext. apply toObj_fromObj.
Qed.

(** X2. [loadJSON] replaces the stroke list and nothing else: a record
    without [strokes] gives the empty document, the imported aspect ratio is
    not used, and the undone stack of the previous document stays, so that a
    [redo] after the import appends the stroke undone before it. *)
Theorem loadJSON_keeps_undone (d : DataI.t) (st : Sketchpad) :
  (DataI.strokes d = None -> _strokes (loadJSON d st) = []) /\
  (forall ratio, loadJSON (DataI.mk ratio (DataI.strokes d)) st = loadJSON d st) /\
  undoneStrokes (loadJSON d st) = undoneStrokes st /\
  canvas_width (loadJSON d st) = canvas_width st /\
  canvas_height (loadJSON d st) = canvas_height st /\
  aspectRatio (loadJSON d st) = aspectRatio st /\
  (forall u s, undoneStrokes st = u ++ [s] ->
     _strokes (redo (loadJSON d st)) = _strokes (loadJSON d st) ++ [s]).
Proof.
  split; [intros H; unfold loadJSON; now rewrite H |].
  repeat split.
  intros u s H. rewrite (redo_push _ u s); [reflexivity | exact H].
Qed.

Lemma loadJSON_keeps_undone_witness :
  _strokes (redo (loadJSON (DataI.mk None None) (undo oneStrokePad))) =
  _strokes (loadJSON (DataI.mk None None) (undo oneStrokePad)) ++
  [sampleStroke [Point 0 0; Point (1 # 2) (1 # 2)]].
Proof.
  exact (proj2 (proj2 (proj2 (proj2 (proj2 (proj2
           (loadJSON_keeps_undone (DataI.mk None None) (undo oneStrokePad)))))))
           [] _ eq_refl).
Defined.

(** ** Repeated undo and redo *)

Lemma iterate_comm (A : Type) (f : A -> A) (n : nat) (a : A) :
  iterate n f (f a) = f (iterate n f a).
Proof.
  revert a. induction n as [| n IH]; intros a; [reflexivity |].
  simpl. now rewrite IH.
Qed.

Lemma redo_undo (st : Sketchpad) : _strokes st <> [] -> redo (undo st) = st.
Proof.
  intros H. destruct (pop (_strokes st)) as [[s |] rest] eqn:E.
  - apply pop_some in E. rewrite (undo_push st rest s E).
    rewrite (redo_push _ (undoneStrokes st) s) by reflexivity.
    destruct st; simpl in *. unfold set_strokes, set_undoneStrokes; simpl.
    now rewrite E.
  - exfalso. apply H. apply pop_none. now rewrite E.
Qed.

Lemma undo_length (st : Sketchpad) :
  List.length (_strokes (undo st)) = (List.length (_strokes st) - 1)%nat /\
  (List.length (_strokes (undo st)) + List.length (undoneStrokes (undo st)) =
   List.length (_strokes st) + List.length (undoneStrokes st))%nat.
Proof.
  destruct (pop (_strokes st)) as [[s |] rest] eqn:E.
  - apply pop_some in E. rewrite (undo_push st rest s E). simpl.
    rewrite E. unfold push. rewrite !length_app. simpl. lia.
  - assert (H : _strokes st = []) by (apply pop_none; now rewrite E).
    rewrite (undo_empty st H), H. simpl. lia.
Qed.

Lemma redo_length (st : Sketchpad) :
  (List.length (_strokes (redo st)) + List.length (undoneStrokes (redo st)) =
   List.length (_strokes st) + List.length (undoneStrokes st))%nat.
Proof.
  destruct (pop (undoneStrokes st)) as [[s |] rest] eqn:E.
  - apply pop_some in E. rewrite (redo_push st rest s E). simpl.
    rewrite E. unfold push. rewrite !length_app. simpl. lia.
  - assert (H : undoneStrokes st = []) by (apply pop_none; now rewrite E).
    now rewrite (redo_empty st H).
Qed.

(** X3. Undoing [n] strokes and redoing [n] times gives back the pad as it
    was, for every [n] up to the number of strokes; [undo] and [redo] move
    strokes between the two lists and never create or drop one. *)
Theorem undo_n_redo_n (st : Sketchpad) (n : nat) :
  (n <= List.length (_strokes st))%nat ->
  iterate n redo (iterate n undo st) = st /\
  List.length (_strokes (iterate n undo st)) = (List.length (_strokes st) - n)%nat /\
  (List.length (_strokes (undo st)) + List.length (undoneStrokes (undo st)) =
   List.length (_strokes st) + List.length (undoneStrokes st))%nat /\
  (List.length (_strokes (redo st)) + List.length (undoneStrokes (redo st)) =
   List.length (_strokes st) + List.length (undoneStrokes st))%nat.
Proof.
  intros Hn. split; [| split; [| split; [apply undo_length | apply redo_length]]].
  - revert st Hn. induction n as [| n IH]; intros st Hn; [reflexivity |].
    cbn [iterate]. rewrite iterate_comm.
    rewrite IH by (rewrite (proj1 (undo_length st)); lia).
    apply redo_undo. destruct (_strokes st); [simpl in Hn; lia | discriminate].
  - revert st Hn. induction n as [| n IH]; intros st Hn; [simpl; lia |].
    cbn [iterate]. rewrite IH by (rewrite (proj1 (undo_length st)); lia).
    rewrite (proj1 (undo_length st)). lia.
Qed.

Lemma undo_n_redo_n_witness :
  let st := set_strokes [sampleStroke [Point 0 0]; sampleStroke [Point 1 1]] emptyPad in
  iterate 2 redo (iterate 2 undo st) = st.
Proof.
  intros st. exact (proj1 (undo_n_redo_n st 2 (le_n 2))).
Defined.

(** ** Options *)

(** X5. [setOptions] never reads [readOnly] or [line.color]: whatever the
    options, the read-only flag, the default colour, the eraser size, the
    canvas size, the gesture flags and the undone stack stay as they were.
    A falsy value is not stored: a line size or miter limit of 0 leaves the
    default in place. *)
Theorem setOptions_ignored_options (opts : SketchpadOptionsI.t) (st : Sketchpad) :
  readOnly (setOptions opts st) = readOnly st /\
  lineColor (setOptions opts st) = lineColor st /\
  eraserSize (setOptions opts st) = eraserSize st /\
  canvas_width (setOptions opts st) = canvas_width st /\
  canvas_height (setOptions opts st) = canvas_height st /\
  sketching (setOptions opts st) = sketching st /\
  isEraserActive (setOptions opts st) = isEraserActive st /\
  undoneStrokes (setOptions opts st) = undoneStrokes st /\
  lineWidth (setOptions opts st) =
    or_default (truthy_number (line_field LineOptionsI.size opts)) (lineWidth st) /\
  lineMiterLimit (setOptions opts st) =
    or_default (truthy_number (line_field LineOptionsI.miterLimit opts))
      (lineMiterLimit st) /\
  (forall q, line_field LineOptionsI.size opts = Some q -> q == 0 ->
     lineWidth (setOptions opts st) = lineWidth st).
Proof.
  assert (H : forall q, q == 0 -> truthy_number (Some q) = None).
  { intros q Hq. unfold truthy_number. apply Qeq_bool_iff in Hq. now rewrite Hq. }
  unfold setOptions.
  destruct (truthy_string (SketchpadOptionsI.backgroundColor opts)),
    (truthy_number (line_field LineOptionsI.size opts)) eqn:Es,
    (truthy_bool (line_field LineOptionsI.isInterpolationDone opts)),
    (line_field LineOptionsI.cap opts), (line_field LineOptionsI.join opts),
    (truthy_number (line_field LineOptionsI.miterLimit opts)),
    (truthy_number (SketchpadOptionsI.aspectRatio opts)),
    (SketchpadOptionsI.data opts); simpl;
    repeat split; intros z Hq Hz; rewrite Hq, (H z Hz) in Es; discriminate Es.
Qed.

Lemma setOptions_ignored_options_witness :
  lineWidth (setOptions (SketchpadOptionsI.of_line
                           (LineOptionsI.mk (Some 0) (Some "red"%string) None None
                              None None)) emptyPad) = 5.
Proof.
  exact (proj2 (proj2 (proj2 (proj2 (proj2 (proj2 (proj2 (proj2 (proj2 (proj2
           (setOptions_ignored_options
              (SketchpadOptionsI.of_line
                 (LineOptionsI.mk (Some 0) (Some "red"%string) None None None None))
              emptyPad)))))))))) 0 eq_refl eq_refl).
Defined.

(** ** Read-only and idle pads *)

Lemma idle_move (e : Event) (st : Sketchpad) :
  sketching st = false -> fst (drawStrokeHandler e st) = st.
Proof.
  intros H. unfold drawStrokeHandler, withValue.
  destruct (getCursorRelativeToCanvas e st); try reflexivity.
  now rewrite H.
Qed.

Lemma idle_end (e : Event) (st : Sketchpad) :
  sketching st = false -> endStrokeHandler e st = (st, Ret tt).
Proof. intros H. unfold endStrokeHandler. now rewrite H. Qed.

Lemma readOnly_start (e : Event) (st : Sketchpad) :
  readOnly st = true -> startStrokeHandler e st = (st, Ret tt).
Proof. intros H. unfold startStrokeHandler. now rewrite H. Qed.

(** X6. A pad with no gesture in progress ignores pointer-move and
    pointer-up events, and a read-only pad with no gesture in progress is not
    changed by any sequence of pointer events, whatever they are. *)
Theorem readOnly_idle_pad_ignores_events (st : Sketchpad) :
  sketching st = false ->
  (forall e, fst (drawStrokeHandler e st) = st /\ fst (endStrokeHandler e st) = st) /\
  (readOnly st = true -> forall evs, run evs st = st).
Proof.
  intros Hs. split.
  - intros e. split; [now apply idle_move | now rewrite idle_end].
  - intros Hr evs. induction evs as [| [name e] evs IH]; [reflexivity |].
    cbn [run fold_left]. fold (run evs (step (name, e) st)).
    assert (E : step (name, e) st = st).
    { unfold step, dispatch. cbn [fst snd].
      destruct name; try (now rewrite readOnly_start);
        try (now apply idle_move); now rewrite idle_end. }
    now rewrite E.
Qed.

Lemma readOnly_idle_pad_ignores_events_witness :
  let st := setReadOnly true oneStrokePad in
  run [(mousedown, MouseEvent 10 10); (mousemove, MouseEvent 20 20);
       (touchmove, TouchEvent []); (mouseup, MouseEvent 30 30)] st = st.
Proof.
  intros st.
  exact (proj2 (readOnly_idle_pad_ignores_events st eq_refl) eq_refl _).
Defined.

(** ** The read-only flag during a gesture *)

Section ReadOnlyFrame.
Variable b : bool.

Lemma erasePoints_readOnly (cursor : PointI) :
  commutes_readOnly b (erasePoints cursor).
Proof.
  intros st. unfold erasePoints.
  change (eraserRadius (set_readOnly b st)) with (eraserRadius st).
  change (_strokes (set_readOnly b st)) with (_strokes st).
  now destruct (eraseStrokes _ _ _).
Qed.

Lemma pushPoint_readOnly (point : PointI) : commutes_readOnly b (pushPoint point).
Proof.
  intros st. unfold pushPoint.
  change (_strokes (set_readOnly b st)) with (_strokes st).
  destruct (pop (_strokes st)) as [[s |] rest]; [| reflexivity].
  now destruct (Stroke.points s).
Qed.

Lemma createNewStrokesAfterInterpolation_readOnly (k : Q) :
  commutes_readOnly b (fun st => createNewStrokesAfterInterpolation (last_stroke st) k st).
Proof.
  intros st. unfold createNewStrokesAfterInterpolation, last_stroke.
  change (_strokes (set_readOnly b st)) with (_strokes st).
  destruct (fst (pop (_strokes st))); [| reflexivity].
  cbn [canvas_width canvas_height set_strokes set_readOnly].
  now destruct (interpolateExistingShapePaths _ _ _ _).
Qed.

Lemma andThen_readOnly (f g : Sketchpad -> Sketchpad * outcome unit) :
  commutes_readOnly b f -> commutes_readOnly b g ->
  commutes_readOnly b (fun st => andThen (f st) g).
Proof.
  intros Hf Hg st. rewrite Hf. unfold andThen. cbn [fst snd].
  destruct (snd (f st)); try reflexivity. apply Hg.
Qed.
End ReadOnlyFrame.

(** X7. The handlers of pointer-move and pointer-up never consult the
    read-only flag: with the flag set either way they do to the document
    exactly what they do without it.  Only pointer-down is refused on a
    read-only pad, so a gesture begun before [setReadOnly(true)] still
    draws, or erases, to its end. *)
Theorem readOnly_not_checked_after_start (b : bool) (e : Event) (st : Sketchpad) :
  drawStrokeHandler e (setReadOnly b st) =
    (setReadOnly b (fst (drawStrokeHandler e st)), snd (drawStrokeHandler e st)) /\
  endStrokeHandler e (setReadOnly b st) =
    (setReadOnly b (fst (endStrokeHandler e st)), snd (endStrokeHandler e st)) /\
  startStrokeHandler e (setReadOnly true st) = (setReadOnly true st, Ret tt).
Proof.
  unfold setReadOnly. split; [| split; [| reflexivity]].
  - unfold drawStrokeHandler, withValue.
    change (getCursorRelativeToCanvas e (set_readOnly b st))
      with (getCursorRelativeToCanvas e st).
    destruct (getCursorRelativeToCanvas e st) as [point | |]; try reflexivity.
    change (sketching (set_readOnly b st)) with (sketching st).
    change (isEraserActive (set_readOnly b st)) with (isEraserActive st).
    destruct (sketching st); [| reflexivity]. cbn [negb].
    destruct (isEraserActive st);
      [apply erasePoints_readOnly | apply pushPoint_readOnly].
  - unfold endStrokeHandler.
    change (sketching (set_readOnly b st)) with (sketching st).
    destruct (sketching st); [| reflexivity]. cbn [negb].
    destruct (isTouchEvent e); [reflexivity |].
    unfold withValue.
    change (getCursorRelativeToCanvas e (set_sketching false (set_readOnly b st)))
      with (getCursorRelativeToCanvas e (set_sketching false st)).
    destruct (getCursorRelativeToCanvas e (set_sketching false st)) as [point | |];
      try reflexivity.
    change (isEraserActive (set_sketching false (set_readOnly b st)))
      with (isEraserActive (set_sketching false st)).
    change (set_sketching false (set_readOnly b st))
      with (set_readOnly b (set_sketching false st)).
    destruct (isEraserActive (set_sketching false st)).
    + apply (andThen_readOnly b (erasePoints point)
               (fun s => (createNewStrokesAfterErasing s, Ret tt))).
      * apply erasePoints_readOnly.
      * intros s. reflexivity.
    + apply (andThen_readOnly b
               (fun s => andThen (pushPoint point s)
                           (fun s' => createNewStrokesAfterInterpolation
                                        (last_stroke s') 2 s'))
               (fun s => (createNewStrokesAfterErasing s, Ret tt))).
      * apply (andThen_readOnly b (pushPoint point)
                 (fun s' => createNewStrokesAfterInterpolation (last_stroke s') 2 s')).
        -- apply pushPoint_readOnly.
        -- apply createNewStrokesAfterInterpolation_readOnly.
      * intros s. reflexivity.
Qed.

(** ** What re-segmentation keeps *)

Lemma resegment_points (newStroke : Stroke.t) (pts : list PointI) :
  forall cur, pts <> [] ->
  all_points (resegment newStroke pts cur) = cur ++ filter unmarked pts.
Proof.
  unfold all_points.
  induction pts as [| p rest IH]; intros cur Hne; [congruence |].
  rewrite resegment_cons. unfold unmarked at 1. cbn [filter].
  destruct (is_skipped p) eqn:Hp; cbn [negb].
  - destruct cur as [| c cur]; cbn [List.length Nat.ltb Nat.leb].
    + destruct rest as [| q rest]; [reflexivity |].
      now rewrite IH by discriminate.
    + cbn [flat_map]. unfold Stroke.points_or_empty at 1. cbn [Stroke.with_points Stroke.points].
      destruct rest as [| q rest]; [reflexivity |].
      now rewrite IH by discriminate.
  - destruct rest as [| q rest].
    + cbn [app flat_map resegment filter]. unfold Stroke.points_or_empty, push. simpl.
      now rewrite app_nil_r.
    + cbn [app]. rewrite IH by discriminate. unfold push.
      now rewrite <- app_assoc.
Qed.

Lemma fragments_points (s : Stroke.t) :
  all_points (fragments s) = filter unmarked (Stroke.points_or_empty s).
Proof.
  unfold fragments. destruct (Stroke.points_or_empty s) as [| p ps] eqn:E.
  - reflexivity.
  - now rewrite resegment_points by discriminate.
Qed.

Lemma all_points_app (l1 l2 : list Stroke.t) :
  all_points (l1 ++ l2) = all_points l1 ++ all_points l2.
Proof. apply flat_map_app. Qed.

Lemma filter_app_list (A : Type) (f : A -> bool) (l1 l2 : list A) :
  filter f (l1 ++ l2) = filter f l1 ++ filter f l2.
Proof.
  induction l1 as [| a l1 IH]; [reflexivity |].
  simpl. destruct (f a); simpl; now rewrite IH.
Qed.

Lemma flat_map_fragments_points (l : list Stroke.t) :
  all_points (flat_map fragments l) = filter unmarked (all_points l).
Proof.
  induction l as [| s l IH]; [reflexivity |].
  cbn [flat_map]. rewrite all_points_app, IH, fragments_points.
  change (all_points (s :: l)) with (Stroke.points_or_empty s ++ all_points l).
  now rewrite filter_app_list.
Qed.

(** X8. Re-segmentation keeps exactly the unmarked points, in their order:
    the points of the fragments of a stroke, laid end to end, are the
    unmarked points of the stroke, and the same holds for the whole document.
    No surviving point is lost, duplicated or moved to another place in the
    drawing order. *)
Theorem resegmentation_keeps_unmarked_points (st : Sketchpad) :
  (forall s, all_points (fragments s) = filter unmarked (Stroke.points_or_empty s)) /\
  all_points (_strokes (createNewStrokesAfterErasing st)) =
    filter unmarked (all_points (_strokes st)).
Proof.
  split; [apply fragments_points |].
  rewrite createNewStrokesAfterErasing_strokes. apply flat_map_fragments_points.
Qed.

Lemma fragment_is_fixed (f : Stroke.t) :
  (exists ps, Stroke.points f = Some ps /\ ps <> [] /\
              Forall (fun p => is_skipped p = false) ps) ->
  fragments f = [f].
Proof. intros (ps & H1 & H2 & H3). now apply (fragments_untouched f ps). Qed.

Lemma flat_map_fragments_fixed (l : list Stroke.t) :
  Forall (fun f => exists ps, Stroke.points f = Some ps /\ ps <> [] /\
                              Forall (fun p => is_skipped p = false) ps) l ->
  flat_map fragments l = l.
Proof.
  induction 1 as [| f l Hf _ IH]; [reflexivity |].
  cbn [flat_map]. now rewrite (fragment_is_fixed f Hf), IH.
Qed.

Lemma flat_map_fragments_clean (l : list Stroke.t) :
  Forall (fun f => exists ps, Stroke.points f = Some ps /\ ps <> [] /\
                              Forall (fun p => is_skipped p = false) ps)
         (flat_map fragments l).
Proof.
  induction l as [| s l IH]; [constructor |].
  cbn [flat_map]. apply Forall_app. split; [apply fragments_clean | exact IH].
Qed.

(** X9. Re-segmentation is idempotent: running it on its own result changes
    nothing.  It is the identity on a document in which every stroke has at
    least one point and no point is marked. *)
Theorem resegmentation_idempotent (st : Sketchpad) :
  createNewStrokesAfterErasing (createNewStrokesAfterErasing st) =
    createNewStrokesAfterErasing st /\
  (Forall nonempty_stroke (_strokes st) -> no_skipped (_strokes st) ->
   createNewStrokesAfterErasing st = st).
Proof.
  split.
  - unfold createNewStrokesAfterErasing at 1. unfold deepClone.
    rewrite createNewStrokesAfterErasing_strokes.
    rewrite flat_map_fragments_fixed by apply flat_map_fragments_clean.
    reflexivity.
  - intros Hne Hclean. unfold createNewStrokesAfterErasing, deepClone.
    rewrite flat_map_fragments_fixed; [apply set_strokes_same |].
    unfold no_skipped in Hclean. rewrite Forall_forall in *.
    intros s Hs. destruct (Hne s Hs) as (p & ps & Hp).
    exists (p :: ps). split; [exact Hp |]. split; [discriminate |].
    specialize (Hclean s Hs). unfold Stroke.points_or_empty in Hclean.
    now rewrite Hp in Hclean.
Qed.

Lemma resegmentation_idempotent_witness :
  createNewStrokesAfterErasing oneStrokePad = oneStrokePad.
Proof.
  apply (proj2 (resegmentation_idempotent oneStrokePad)).
  - repeat constructor. do 2 eexists. reflexivity.
  - repeat constructor.
Defined.

(** ** What marking keeps *)

Lemma JS_erasePoint_coordinates
    (A : JS.Arithmetic) (cursor : PointI) (area : Q) (p : PointI) :
  px (JS.erasePoint A cursor area p) = px p /\
  py (JS.erasePoint A cursor area p) = py p.
Proof. unfold JS.erasePoint. now destruct (Qle_bool _ _). Qed.

(** X10. On a document whose strokes all have a point array, the marking
    pass returns normally and changes nothing but marks, whatever the
    rounding of the arithmetic: the document keeps its strokes, every point
    keeps its place and its coordinates, a point is marked afterwards exactly
    if it was marked before or passes the test
    [dx * dx + dy * dy <= radius * radius] as the code computes it, and a
    second pass at the same place changes nothing more. *)
Theorem erasePoints_only_marks (A : JS.Arithmetic) (cursor : PointI) (st : Sketchpad) :
  Forall has_points (_strokes st) ->
  let st' := fst (JS.erasePoints A cursor st) in
  let radius := JS.div A (JS.div A (eraserSize st) (canvas_width st)) 2 in
  snd (JS.erasePoints A cursor st) = Ret tt /\
  List.length (_strokes st') = List.length (_strokes st) /\
  map (fun p => (px p, py p)) (all_points (_strokes st')) =
    map (fun p => (px p, py p)) (all_points (_strokes st)) /\
  map is_skipped (all_points (_strokes st')) =
    map (fun p =>
           (is_skipped p ||
            Qle_bool
              (JS.add A
                 (JS.mul A (JS.sub A (px p) (px cursor)) (JS.sub A (px p) (px cursor)))
                 (JS.mul A (JS.sub A (py p) (py cursor)) (JS.sub A (py p) (py cursor))))
              (JS.mul A radius radius))%bool)
        (all_points (_strokes st)) /\
  JS.erasePoints A cursor st' = (st', Ret tt).
Proof.
  intros Hall st' radius. subst st'. rewrite (JS_erasePoints_map A cursor st Hall).
  change (JS.eraserRadius A st) with radius.
  cbn [fst snd _strokes set_strokes].
  split; [reflexivity |]. split; [apply length_map |].
  rewrite JS_all_points_markStroke, !map_map. split; [| split].
  - apply map_ext. intros p.
    destruct (JS_erasePoint_coordinates A cursor (JS.mul A radius radius) p)
      as [-> ->]. reflexivity.
  - apply map_ext. intros p. unfold JS.erasePoint.
    destruct (Qle_bool _ _); [now rewrite orb_true_r | now rewrite orb_false_r].
  - rewrite JS_erasePoints_map
      by (cbn [_strokes set_strokes]; now apply JS_markStroke_has_points).
    cbn [_strokes set_strokes].
    change (JS.eraserRadius A (set_strokes _ st)) with radius.
    f_equal. unfold set_strokes. simpl. f_equal.
    rewrite map_map. apply map_ext. apply JS_markStroke_idempotent.
Qed.

(** In doubles, on the default pad of 100 pixels with its eraser of 20: the
    point (0.4, 0.5) is not marked from (0.3, 0.5), the difference of the
    two doubles being above the radius 0.1; the point (0.5, 0.5) is marked
    from its own place. *)
Lemma erasePoints_only_marks_witness :
  let far := set_strokes [sampleStroke [Point (JS.div JS.binary64 40 100)
                                              (JS.div JS.binary64 50 100)]] eraserPad in
  map is_skipped
    (all_points (_strokes (fst (JS.erasePoints JS.binary64
                                  (Point (JS.div JS.binary64 30 100)
                                         (JS.div JS.binary64 50 100)) far)))) =
    [false] /\
  JS.erasePoints JS.binary64 (Point (1 # 2) (1 # 2))
    (fst (JS.erasePoints JS.binary64 (Point (1 # 2) (1 # 2)) eraserPad)) =
  (fst (JS.erasePoints JS.binary64 (Point (1 # 2) (1 # 2)) eraserPad), Ret tt).
Proof.
  intros far. split.
  - rewrite (proj1 (proj2 (proj2 (proj2
      (erasePoints_only_marks JS.binary64
         (Point (JS.div JS.binary64 30 100) (JS.div JS.binary64 50 100)) far
         ltac:(repeat constructor; discriminate)))))).
    vm_compute. reflexivity.
  - apply (erasePoints_only_marks JS.binary64 (Point (1 # 2) (1 # 2)) eraserPad).
    repeat constructor; discriminate.
Defined.

(** X11. A stroke without a point array stops the marking pass with a
    [TypeError]: the strokes before it are marked, the stroke itself and the
    strokes after it are left as they were. *)
Theorem erasePoints_throws_without_points
    (cursor : PointI) (st : Sketchpad) (before after : list Stroke.t) (s : Stroke.t) :
  _strokes st = before ++ s :: after ->
  Forall has_points before ->
  Stroke.points s = None ->
  erasePoints cursor st =
    (set_strokes
       (map (markStroke cursor (eraserRadius st * eraserRadius st)) before ++
        s :: after) st,
     TypeError).
Proof.
  intros Hst Hb Hs. unfold erasePoints. rewrite Hst.
  assert (E : forall a,
             eraseStrokes cursor a (before ++ s :: after) =
             (map (markStroke cursor a) before ++ s :: after, TypeError)).
  { clear Hst. intros a. induction Hb as [| b before Hbp _ IH]; simpl.
    - now rewrite Hs.
    - unfold has_points in Hbp. unfold markStroke at 1.
      destruct (Stroke.points b); [| congruence]. now rewrite IH. }
  now rewrite E.
Qed.

Lemma erasePoints_throws_without_points_witness :
  let bare := Stroke.mk None None None None None None None in
  let st := set_strokes [sampleStroke [Point (1 # 2) (1 # 2)]; bare;
                         sampleStroke [Point (1 # 2) (1 # 2)]] eraserPad in
  erasePoints (Point (1 # 2) (1 # 2)) st =
    (set_strokes
       ([sampleStroke [mkPoint (1 # 2) (1 # 2) (Some true)]] ++
        bare :: [sampleStroke [Point (1 # 2) (1 # 2)]]) st,
     TypeError).
Proof.
  intros bare st.
  apply (erasePoints_throws_without_points (Point (1 # 2) (1 # 2)) st
           [sampleStroke [Point (1 # 2) (1 # 2)]]
           [sampleStroke [Point (1 # 2) (1 # 2)]] bare).
  - reflexivity.
  - repeat constructor; discriminate.
  - reflexivity.
Defined.



Lemma nonempty_has_points (l : list Stroke.t) :
  Forall nonempty_stroke l -> Forall has_points l.
Proof.
  intros H. eapply Forall_impl; [| exact H].
  intros s (p & ps & Hs). unfold has_points. now rewrite Hs.
Qed.


Lemma createNewStrokesAfterErasing_fixed (st : Sketchpad) :
  Forall nonempty_stroke (_strokes st) -> no_skipped (_strokes st) ->
  createNewStrokesAfterErasing st = st.
Proof.
  intros Hne Hclean. unfold createNewStrokesAfterErasing, deepClone.
  rewrite flat_map_fragments_fixed; [apply set_strokes_same |].
  unfold no_skipped in Hclean. rewrite Forall_forall in *.
  intros s Hs. destruct (Hne s Hs) as (p & ps & Hp).
  exists (p :: ps). split; [exact Hp |]. split; [discriminate |].
  specialize (Hclean s Hs). unfold Stroke.points_or_empty in Hclean.
  now rewrite Hp in Hclean.
Qed.



(** ** Errors of the interpolator and of the handlers *)

Lemma interpolate_empty (cw ch k : Q) (stroke : Stroke.t) :
  Stroke.points_or_empty stroke = [] ->
  interpolateExistingShapePaths cw ch stroke k = TypeError.
Proof. intros H. unfold interpolateExistingShapePaths. now rewrite H. Qed.

(** X13. The interpolator throws a [TypeError] on a stroke without points,
    whatever the interval.  At mouse-up in draw mode, when the last stroke
    has no point array (a stroke loaded from a record without [points]),
    nothing is appended, the stroke has already been popped when the throw
    happens, and the document is left one stroke shorter, not re-segmented. *)
Theorem mouseup_on_stroke_without_points
    (st : Sketchpad) (x y : Q) (before : list Stroke.t) (s : Stroke.t) :
  sketching st = true ->
  isEraserActive st = false ->
  _strokes st = before ++ [s] ->
  Stroke.points s = None ->
  (forall cw ch k, interpolateExistingShapePaths cw ch s k = TypeError) /\
  endStrokeHandler (MouseEvent x y) st =
    (set_strokes before (set_sketching false st), TypeError).
Proof.
  intros Hsk Her Hst Hs.
  assert (Hi : forall cw ch k, interpolateExistingShapePaths cw ch s k = TypeError).
  { intros. apply interpolate_empty. unfold Stroke.points_or_empty. now rewrite Hs. }
  split; [exact Hi |].
  unfold endStrokeHandler. rewrite Hsk. cbn [negb isTouchEvent].
  cbn [getCursorRelativeToCanvas obind withValue px py Point].
  change (isEraserActive (set_sketching false st)) with (isEraserActive st).
  rewrite Her. unfold pushPoint.
  change (_strokes (set_sketching false st)) with (_strokes st).
  rewrite Hst. change (before ++ [s]) with (push before s). rewrite pop_push, Hs.
  unfold andThen at 2. cbn [fst snd].
  unfold createNewStrokesAfterInterpolation, last_stroke.
  change (_strokes (set_sketching false st)) with (_strokes st).
  rewrite Hst. change (before ++ [s]) with (push before s). rewrite pop_push.
  cbn [fst snd]. rewrite Hi. reflexivity.
Qed.

Lemma mouseup_on_stroke_without_points_witness :
  let bare := Stroke.mk None None None None None None None in
  let st := set_sketching true (set_strokes [sampleStroke [Point 0 0]; bare] emptyPad) in
  endStrokeHandler (MouseEvent 10 10) st =
    (set_strokes [sampleStroke [Point 0 0]] (set_sketching false st), TypeError).
Proof.
  intros bare st.
  exact (proj2 (mouseup_on_stroke_without_points st 10 10
                  [sampleStroke [Point 0 0]] bare eq_refl eq_refl eq_refl eq_refl)).
Defined.

(** X14. A drawing gesture whose stroke list is empty, as it is after a
    [clear()] during the gesture, throws at the next pointer-move and at the
    mouse-up: both raise a [TypeError] and append nothing; the mouse-up still
    closes the gesture. *)
Theorem draw_gesture_on_empty_list (st : Sketchpad) (x y : Q) :
  sketching st = true ->
  isEraserActive st = false ->
  (_strokes st = [] ->
   drawStrokeHandler (MouseEvent x y) st = (st, TypeError) /\
   endStrokeHandler (MouseEvent x y) st = (set_sketching false st, TypeError)) /\
  drawStrokeHandler (MouseEvent x y) (clear st) = (clear st, TypeError) /\
  endStrokeHandler (MouseEvent x y) (clear st) =
    (set_sketching false (clear st), TypeError).
Proof.
  intros Hsk Her.
  assert (Hm : forall s, sketching s = true -> isEraserActive s = false ->
                         _strokes s = [] ->
                         drawStrokeHandler (MouseEvent x y) s = (s, TypeError)).
  { intros s H1 H2 H3. unfold drawStrokeHandler.
    cbn [getCursorRelativeToCanvas obind withValue px py Point].
    rewrite H1, H2. cbn [negb]. unfold pushPoint. now rewrite H3. }
  assert (He : forall s, sketching s = true -> isEraserActive s = false ->
                         _strokes s = [] ->
                         endStrokeHandler (MouseEvent x y) s =
                         (set_sketching false s, TypeError)).
  { intros s H1 H2 H3. unfold endStrokeHandler. rewrite H1. cbn [negb isTouchEvent].
    cbn [getCursorRelativeToCanvas obind withValue px py Point].
    change (isEraserActive (set_sketching false s)) with (isEraserActive s).
    rewrite H2. unfold pushPoint.
    change (_strokes (set_sketching false s)) with (_strokes s).
    now rewrite H3. }
  split; [intros Hst; split; [now apply Hm | now apply He] |].
  split; [now apply Hm | now apply He].
Qed.

Lemma draw_gesture_on_empty_list_witness :
  let st := fst (startStrokeHandler (MouseEvent 10 10) emptyPad) in
  drawStrokeHandler (MouseEvent 20 20) (clear st) = (clear st, TypeError) /\
  (let st0 := set_sketching true emptyPad in
   drawStrokeHandler (MouseEvent 20 20) st0 = (st0, TypeError) /\
   endStrokeHandler (MouseEvent 20 20) st0 = (set_sketching false st0, TypeError)).
Proof.
  intros st. split.
  - exact (proj1 (proj2 (draw_gesture_on_empty_list st 20 20 eq_refl eq_refl))).
  - intros st0.
    exact (proj1 (draw_gesture_on_empty_list st0 20 20 eq_refl eq_refl) eq_refl).
Defined.

(** X15. [pushPoint] appends to whatever stroke is last.  When [undo()]
    removes the stroke of a gesture in progress, the next pointer-move
    appends its point to the stroke drawn before, which grows by that
    point. *)
Theorem undo_during_gesture_redirects_points
    (st : Sketchpad) (x y : Q) (before : list Stroke.t) (s1 s2 : Stroke.t)
    (ps : list PointI) :
  sketching st = true ->
  isEraserActive st = false ->
  _strokes st = before ++ [s1; s2] ->
  Stroke.points s1 = Some ps ->
  let point := Point (x / canvas_width st) (y / canvas_height st) in
  drawStrokeHandler (MouseEvent x y) (undo st) =
    (set_strokes (before ++ [Stroke.with_points s1 (Some (ps ++ [point]))]) (undo st),
     Ret tt).
Proof.
  intros Hsk Her Hst Hs point.
  assert (Hu : undo st = set_undoneStrokes (push (undoneStrokes st) s2)
                           (set_strokes (before ++ [s1]) st)).
  { apply undo_push. rewrite Hst. unfold push. now rewrite <- app_assoc. }
  rewrite Hu. unfold drawStrokeHandler.
  cbn [getCursorRelativeToCanvas obind withValue px py Point].
  change (sketching (set_undoneStrokes _ (set_strokes _ st))) with (sketching st).
  change (isEraserActive (set_undoneStrokes _ (set_strokes _ st)))
    with (isEraserActive st).
  rewrite Hsk, Her. cbn [negb].
  change (canvas_width (set_undoneStrokes _ (set_strokes _ st)))
    with (canvas_width st).
  change (canvas_height (set_undoneStrokes _ (set_strokes _ st)))
    with (canvas_height st).
  fold point.
  now rewrite (pushPoint_last point
                 (set_undoneStrokes (push (undoneStrokes st) s2)
                    (set_strokes (before ++ [s1]) st))
                 before s1 ps eq_refl Hs).
Qed.

Lemma undo_during_gesture_redirects_points_witness :
  let st := fst (startStrokeHandler (MouseEvent 10 10) oneStrokePad) in
  drawStrokeHandler (MouseEvent 20 20) (undo st) =
    (set_strokes
       ([] ++ [Stroke.with_points (sampleStroke [Point 0 0; Point (1 # 2) (1 # 2)])
                 (Some ([Point 0 0; Point (1 # 2) (1 # 2)] ++
                        [Point (20 / canvas_width st) (20 / canvas_height st)]))])
       (undo st),
     Ret tt).
Proof.
  intros st.
  exact (undo_during_gesture_redirects_points st 20 20 []
           (sampleStroke [Point 0 0; Point (1 # 2) (1 # 2)]) _ _
           eq_refl eq_refl eq_refl eq_refl).
Defined.

(** ** Gestures in draw mode *)

Lemma getCursor_recorded (e : Event) (st : Sketchpad) :
  has_position e -> getCursorRelativeToCanvas e st = Ret (recorded st e).
Proof.
  destruct e as [x y | [| t ts]]; simpl; intros H; [reflexivity | contradiction |].
  reflexivity.
Qed.

Lemma run_app (l1 l2 : list (EventName * Event)) (st : Sketchpad) :
  run (l1 ++ l2) st = run l2 (run l1 st).
Proof. apply fold_left_app. Qed.

Lemma run_ok_app (l1 l2 : list (EventName * Event)) (st : Sketchpad) :
  run_ok l1 st -> run_ok l2 (run l1 st) -> run_ok (l1 ++ l2) st.
Proof.
  revert st. induction l1 as [| ev l1 IH]; intros st H1 H2; [exact H2 |].
  destruct H1 as [Ha Hb]. split; [exact Ha |]. now apply IH.
Qed.

Lemma move_in_draw_mode (ev : EventName * Event) (st : Sketchpad)
    (before : list Stroke.t) (s : Stroke.t) (ps : list PointI) :
  is_move ev ->
  sketching st = true -> isEraserActive st = false ->
  _strokes st = before ++ [s] -> Stroke.points s = Some ps ->
  dispatch (fst ev) (snd ev) st =
  (set_strokes
     (before ++ [Stroke.with_points s (Some (ps ++ [recorded st (snd ev)]))]) st,
   Ret tt).
Proof.
  intros [Hname Hpos] Hsk Her Hst Hs.
  assert (E : dispatch (fst ev) (snd ev) st = drawStrokeHandler (snd ev) st).
  { destruct Hname as [-> | ->]; reflexivity. }
  rewrite E. unfold drawStrokeHandler.
  rewrite (getCursor_recorded _ _ Hpos). unfold withValue.
  rewrite Hsk, Her. cbn [negb].
  exact (pushPoint_last _ st before s ps Hst Hs).
Qed.

Lemma moves_accumulate (moves : list (EventName * Event)) :
  forall (st : Sketchpad) (before : list Stroke.t) (s : Stroke.t) (ps : list PointI),
  Forall is_move moves ->
  sketching st = true -> isEraserActive st = false ->
  _strokes st = before ++ [s] -> Stroke.points s = Some ps ->
  run moves st =
    set_strokes
      (before ++
       [Stroke.with_points s
          (Some (ps ++ map (fun ev => recorded st (snd ev)) moves))]) st /\
  run_ok moves st.
Proof.
  induction moves as [| ev moves IH]; intros st before s ps Hm Hsk Her Hst Hs.
  - split; [| exact I]. cbn [run fold_left map]. rewrite app_nil_r.
    assert (E : Stroke.with_points s (Some ps) = s).
    { destruct s; simpl in *. now subst. }
    rewrite E, <- Hst. now rewrite set_strokes_same.
  - inversion Hm as [| ? ? Hev Hrest]; subst.
    pose proof (move_in_draw_mode ev st before s ps Hev Hsk Her Hst Hs) as Hstep.
    cbn [run fold_left run_ok]. fold (run moves (step ev st)).
    unfold step. rewrite Hstep. cbn [fst snd].
    destruct (IH (set_strokes
                    (before ++
                     [Stroke.with_points s (Some (ps ++ [recorded st (snd ev)]))]) st)
                before
                (Stroke.with_points s (Some (ps ++ [recorded st (snd ev)])))
                (ps ++ [recorded st (snd ev)])
                Hrest Hsk Her eq_refl eq_refl) as [Hrun Hok].
    split; [| split; [reflexivity | exact Hok]].
    rewrite Hrun. cbn [map]. rewrite <- app_assoc. reflexivity.
Qed.

Lemma down_in_draw_mode (ev : EventName * Event) (st : Sketchpad) :
  is_down ev -> readOnly st = false -> isEraserActive st = false ->
  dispatch (fst ev) (snd ev) st =
  (set_strokes (_strokes st ++ [newStroke [recorded st (snd ev)] st])
     (set_sketching true st), Ret tt).
Proof.
  intros [Hname Hpos] Hro Her.
  assert (E : dispatch (fst ev) (snd ev) st = startStrokeHandler (snd ev) st).
  { destruct Hname as [-> | ->]; reflexivity. }
  rewrite E. unfold startStrokeHandler. rewrite Hro.
  rewrite (getCursor_recorded _ _ Hpos). unfold withValue.
  change (isEraserActive (set_sketching true st)) with (isEraserActive st).
  now rewrite Her.
Qed.

Lemma down_and_moves (down : EventName * Event) (moves : list (EventName * Event))
    (st : Sketchpad) :
  is_down down -> Forall is_move moves ->
  readOnly st = false -> isEraserActive st = false ->
  run (down :: moves) st =
    set_strokes
      (_strokes st ++
       [newStroke (recorded st (snd down) ::
                   map (fun ev => recorded st (snd ev)) moves) st])
      (set_sketching true st) /\
  run_ok (down :: moves) st.
Proof.
  intros Hd Hm Hro Her.
  pose proof (down_in_draw_mode down st Hd Hro Her) as Hstep.
  cbn [run fold_left run_ok]. fold (run moves (step down st)).
  unfold step. rewrite Hstep. cbn [fst snd].
  destruct (moves_accumulate moves
              (set_strokes (_strokes st ++ [newStroke [recorded st (snd down)] st])
                 (set_sketching true st))
              (_strokes st) (newStroke [recorded st (snd down)] st)
              [recorded st (snd down)] Hm eq_refl Her eq_refl eq_refl)
    as [Hrun Hok].
  split; [| split; [reflexivity | exact Hok]].
  rewrite Hrun. reflexivity.
Qed.

(** X16. In draw mode a pointer-down followed by pointer-moves, by mouse
    or by touch, appends one stroke to the document: it carries the default
    style of the pad and holds the recorded positions in the order of the
    events, none dropped.  No handler throws.  A [touchend] then only closes
    the gesture: the stroke stays as recorded, not interpolated. *)
Theorem gesture_records_positions_in_order
    (down : EventName * Event) (moves : list (EventName * Event))
    (touches : list (Q * Q)) (st : Sketchpad) :
  is_down down -> Forall is_move moves ->
  readOnly st = false -> isEraserActive st = false ->
  let raw := newStroke (recorded st (snd down) ::
                        map (fun ev => recorded st (snd ev)) moves) st in
  run (down :: moves) st =
    set_strokes (_strokes st ++ [raw]) (set_sketching true st) /\
  run_ok (down :: moves) st /\
  run ((down :: moves) ++ [(touchend, TouchEvent touches)]) st =
    set_strokes (_strokes st ++ [raw]) (set_sketching false st).
Proof.
  intros Hd Hm Hro Her raw.
  destruct (down_and_moves down moves st Hd Hm Hro Her) as [Hrun Hok].
  split; [exact Hrun |]. split; [exact Hok |].
  rewrite run_app, Hrun. reflexivity.
Qed.

Lemma gesture_records_positions_in_order_witness :
  run [(touchstart, TouchEvent [(10, 10)]); (touchmove, TouchEvent [(20, 30)]);
       (mousemove, MouseEvent 40 50)] emptyPad =
  set_strokes
    ([] ++ [newStroke [Point (10 / 100) (10 / 100); Point (20 / 100) (30 / 100);
                       Point (40 / 100) (50 / 100)] emptyPad])
    (set_sketching true emptyPad).
Proof.
  apply (gesture_records_positions_in_order
           (touchstart, TouchEvent [(10, 10)])
           [(touchmove, TouchEvent [(20, 30)]); (mousemove, MouseEvent 40 50)]
           [] emptyPad).
  - split; [now right | exact I].
  - constructor; [split; [now right | exact I] |].
    constructor; [split; [now left | exact I] | constructor].
  - reflexivity.
  - reflexivity.
Defined.

(** X17. A whole mouse gesture in draw mode, on a document of non-empty
    strokes without marked points, appends exactly one stroke and leaves the
    earlier strokes as they were: the new stroke is the interpolation, at
    interval 2, of the recorded positions followed by the position of the
    mouse-up, and the gesture is closed.  No handler throws. *)
Theorem mouse_gesture_commits_one_stroke
    (down : EventName * Event) (moves : list (EventName * Event))
    (x y : Q) (st : Sketchpad) :
  is_down down -> Forall is_move moves ->
  readOnly st = false -> isEraserActive st = false ->
  Forall nonempty_stroke (_strokes st) -> no_skipped (_strokes st) ->
  let raw := newStroke (recorded st (snd down) ::
                        map (fun ev => recorded st (snd ev)) moves ++
                        [Point (x / canvas_width st) (y / canvas_height st)]) st in
  exists new,
    interpolateExistingShapePaths (canvas_width st) (canvas_height st) raw 2 = Ret new /\
    run ((down :: moves) ++ [(mouseup, MouseEvent x y)]) st =
      set_strokes (_strokes st ++ [new]) (set_sketching false st) /\
    run_ok ((down :: moves) ++ [(mouseup, MouseEvent x y)]) st.
Proof.
  intros Hd Hm Hro Her Hne Hclean raw.
  destruct (down_and_moves down moves st Hd Hm Hro Her) as [Hrun Hok].
  set (st1 := set_strokes
                (_strokes st ++
                 [newStroke (recorded st (snd down) ::
                             map (fun ev => recorded st (snd ev)) moves) st])
                (set_sketching true st)) in *.
  destruct (endStrokeHandler_draw st1 x y (_strokes st)
              (newStroke (recorded st (snd down) ::
                          map (fun ev => recorded st (snd ev)) moves) st)
              (recorded st (snd down) :: map (fun ev => recorded st (snd ev)) moves)
              eq_refl Her eq_refl eq_refl) as (new & Hint & Hend).
  exists new. split; [exact Hint |].
  assert (Hfix : flat_map fragments (_strokes st) = _strokes st).
  { apply (f_equal _strokes (createNewStrokesAfterErasing_fixed st Hne Hclean)). }
  rewrite Hfix in Hend.
  split.
  - rewrite run_app, Hrun. cbn [run fold_left]. unfold step. cbn [fst snd dispatch].
    now rewrite Hend.
  - apply run_ok_app; [exact Hok |]. rewrite Hrun. cbn [run_ok fst snd dispatch].
    split; [now rewrite Hend | exact I].
Qed.

Lemma mouse_gesture_commits_one_stroke_witness :
  exists new,
    interpolateExistingShapePaths 100 100
      (newStroke (Point (10 / 100) (10 / 100) ::
                  [Point (20 / 100) (30 / 100)] ++ [Point (40 / 100) (50 / 100)])
         oneStrokePad) 2 = Ret new /\
    run ([(mousedown, MouseEvent 10 10); (mousemove, MouseEvent 20 30)] ++
         [(mouseup, MouseEvent 40 50)]) oneStrokePad =
      set_strokes (_strokes oneStrokePad ++ [new]) (set_sketching false oneStrokePad) /\
    run_ok ([(mousedown, MouseEvent 10 10); (mousemove, MouseEvent 20 30)] ++
            [(mouseup, MouseEvent 40 50)]) oneStrokePad.
Proof.
  apply (mouse_gesture_commits_one_stroke (mousedown, MouseEvent 10 10)
           [(mousemove, MouseEvent 20 30)] 40 50 oneStrokePad).
  - split; [now left | exact I].
  - constructor; [split; [now left | exact I] | constructor].
  - reflexivity.
  - reflexivity.
  - repeat constructor; do 2 eexists; reflexivity.
  - repeat constructor.
Defined.

(** ** Mouse events never throw on a well-formed pad *)

Lemma markStroke_nonempty (cursor : PointI) (area : Q) (l : list Stroke.t) :
  Forall nonempty_stroke l -> Forall nonempty_stroke (map (markStroke cursor area) l).
Proof.
  intros H. apply Forall_map. eapply Forall_impl; [| exact H].
  intros s (p & ps & Hs). unfold nonempty_stroke, markStroke. simpl.
  rewrite Hs. simpl. eauto.
Qed.

Lemma fragments_nonempty (l : list Stroke.t) :
  Forall nonempty_stroke (flat_map fragments l).
Proof.
  eapply Forall_impl; [| apply flat_map_fragments_clean].
  intros f (ps & Hf & Hne & _). destruct ps as [| p ps]; [congruence |].
  now exists p, ps.
Qed.

Lemma well_formed_idle (st : Sketchpad) :
  Forall nonempty_stroke (_strokes st) -> sketching st = false -> well_formed st.
Proof. intros H Hs. split; [exact H |]. rewrite Hs. discriminate. Qed.

Lemma erasePoints_well_formed (cursor : PointI) (st : Sketchpad) :
  Forall nonempty_stroke (_strokes st) ->
  snd (erasePoints cursor st) = Ret tt /\
  Forall nonempty_stroke (_strokes (fst (erasePoints cursor st))).
Proof.
  intros H. rewrite erasePoints_map by now apply nonempty_has_points.
  split; [reflexivity |]. now apply markStroke_nonempty.
Qed.

Lemma start_well_formed (x y : Q) (st : Sketchpad) :
  well_formed st ->
  snd (startStrokeHandler (MouseEvent x y) st) = Ret tt /\
  well_formed (fst (startStrokeHandler (MouseEvent x y) st)).
Proof.
  intros [Hne Hsk]. unfold startStrokeHandler.
  destruct (readOnly st); [split; [reflexivity | now split] |].
  cbn [getCursorRelativeToCanvas obind withValue px py Point].
  change (isEraserActive (set_sketching true st)) with (isEraserActive st).
  destruct (isEraserActive st) eqn:Her.
  - destruct (erasePoints_well_formed
                (Point (x / canvas_width (set_sketching true st))
                       (y / canvas_height (set_sketching true st)))
                (set_sketching true st) Hne) as [Ho Hw].
    split; [exact Ho |]. split; [exact Hw |].
    intros _ He. exfalso.
    assert (E : isEraserActive (fst (erasePoints
                  (Point (x / canvas_width (set_sketching true st))
                         (y / canvas_height (set_sketching true st)))
                  (set_sketching true st))) = true).
    { unfold erasePoints. destruct (eraseStrokes _ _ _). exact Her. }
    congruence.
  - split; [reflexivity |]. split.
    + cbn [fst pushStroke _strokes set_strokes]. unfold push.
      apply Forall_app. split; [exact Hne |].
      constructor; [| constructor]. do 2 eexists. reflexivity.
    + intros _ _. cbn [fst pushStroke _strokes set_strokes]. unfold push.
      now destruct (_strokes (set_sketching true st)).
Qed.

Lemma move_well_formed (x y : Q) (st : Sketchpad) :
  well_formed st ->
  snd (drawStrokeHandler (MouseEvent x y) st) = Ret tt /\
  well_formed (fst (drawStrokeHandler (MouseEvent x y) st)).
Proof.
  intros [Hne Hsk]. unfold drawStrokeHandler.
  cbn [getCursorRelativeToCanvas obind withValue px py Point].
  destruct (sketching st) eqn:Es; cbn [negb];
    [| split; [reflexivity | apply well_formed_idle; assumption]].
  destruct (isEraserActive st) eqn:Her.
  - destruct (erasePoints_well_formed
                (Point (x / canvas_width st) (y / canvas_height st)) st Hne)
      as [Ho Hw].
    split; [exact Ho |]. split; [exact Hw |].
    intros _ He. exfalso.
    assert (E : isEraserActive (fst (erasePoints
                  (Point (x / canvas_width st) (y / canvas_height st)) st)) = true).
    { unfold erasePoints. destruct (eraseStrokes _ _ _). exact Her. }
    congruence.
  - specialize (Hsk eq_refl eq_refl).
    destruct (pop (_strokes st)) as [[s |] rest] eqn:E.
    + apply pop_some in E.
      assert (Hs : nonempty_stroke s).
      { rewrite E in Hne. unfold push in Hne. apply Forall_app in Hne.
        destruct Hne as [_ H]. now inversion H. }
      destruct Hs as (p & ps & Hp).
      rewrite (pushPoint_last _ st rest s (p :: ps) E Hp).
      split; [reflexivity |]. split.
      * cbn [fst _strokes set_strokes]. unfold push.
        rewrite E in Hne. unfold push in Hne. apply Forall_app in Hne.
        apply Forall_app. split; [tauto |].
        constructor; [| constructor]. do 2 eexists. reflexivity.
      * intros _ _. cbn [fst _strokes set_strokes]. unfold push. now destruct rest.
    + exfalso. apply Hsk. apply pop_none. now rewrite E.
Qed.

Lemma interpolate_nonempty (cw ch k : Q) (s new : Stroke.t) :
  0 < k -> interpolateExistingShapePaths cw ch s k = Ret new -> nonempty_stroke new.
Proof.
  intros Hk H. destruct (Stroke.points_or_empty s) as [| p0 rest] eqn:E.
  - rewrite interpolate_empty in H by exact E. discriminate H.
  - rewrite (interpolate_closed_form cw ch k Hk s p0 rest E) in H.
    injection H as <-. do 2 eexists. reflexivity.
Qed.

Lemma end_well_formed (x y : Q) (st : Sketchpad) :
  well_formed st ->
  snd (endStrokeHandler (MouseEvent x y) st) = Ret tt /\
  well_formed (fst (endStrokeHandler (MouseEvent x y) st)).
Proof.
  intros [Hne Hsk]. unfold endStrokeHandler.
  destruct (sketching st) eqn:Es; cbn [negb];
    [| split; [reflexivity | apply well_formed_idle; assumption]].
  cbn [isTouchEvent getCursorRelativeToCanvas obind withValue px py Point].
  change (isEraserActive (set_sketching false st)) with (isEraserActive st).
  destruct (isEraserActive st) eqn:Her.
  - rewrite erasePoints_map by (now apply nonempty_has_points).
    unfold andThen. cbn [fst snd]. split; [reflexivity |].
    apply well_formed_idle; [| reflexivity].
    rewrite createNewStrokesAfterErasing_strokes. apply fragments_nonempty.
  - specialize (Hsk eq_refl eq_refl).
    destruct (pop (_strokes st)) as [[s |] rest] eqn:E.
    + apply pop_some in E.
      assert (Hs : nonempty_stroke s).
      { rewrite E in Hne. unfold push in Hne. apply Forall_app in Hne.
        destruct Hne as [_ H]. now inversion H. }
      destruct Hs as (p & ps & Hp).
      assert (Es' : sketching st = true) by exact Es.
      destruct (endStrokeHandler_draw st x y rest s (p :: ps) Es' Her E Hp)
        as (new & Hint & Hend).
      unfold endStrokeHandler in Hend. rewrite Es in Hend. cbn [negb] in Hend.
      cbn [isTouchEvent getCursorRelativeToCanvas obind withValue px py Point] in Hend.
      change (isEraserActive (set_sketching false st)) with (isEraserActive st) in Hend.
      rewrite Her in Hend. rewrite Hend. cbn [fst snd].
      split; [reflexivity |].
      apply well_formed_idle; [| reflexivity].
      cbn [_strokes set_strokes]. apply Forall_app. split; [apply fragments_nonempty |].
      constructor; [| constructor].
      now apply (interpolate_nonempty _ _ 2 _ new eq_refl Hint).
    + exfalso. apply Hsk. apply pop_none. now rewrite E.
Qed.

(** X18. Pointer events alone cannot break a pad.  On a pad whose strokes
    all have at least one point and whose drawing gesture, if one is open,
    has its stroke, every mouse event is handled without a throw and leaves
    the pad in the same condition; so does every sequence of mouse events,
    in draw mode and in eraser mode alike.  No stroke without points is ever
    left in the document. *)
Theorem mouse_events_keep_well_formed
    (evs : list (EventName * Event)) (st : Sketchpad) :
  well_formed st ->
  Forall is_mouse evs ->
  run_ok evs st /\ well_formed (run evs st).
Proof.
  revert st. induction evs as [| ev evs IH]; intros st Hw Hm; [now split |].
  inversion Hm as [| ? ? Hev Hrest]; subst.
  assert (Hstep : snd (dispatch (fst ev) (snd ev) st) = Ret tt /\
                  well_formed (step ev st)).
  { unfold step. destruct ev as [name [x y | ts]]; cbn [fst snd];
      destruct name; simpl in Hev; try contradiction; cbn [dispatch];
      [apply start_well_formed | apply move_well_formed
       | apply end_well_formed | apply end_well_formed]; exact Hw. }
  destruct Hstep as [Ho Hw'].
  destruct (IH (step ev st) Hw' Hrest) as [Hok Hfin].
  cbn [run fold_left run_ok]. fold (run evs (step ev st)).
  split; [split; assumption | exact Hfin].
Qed.

Lemma mouse_events_keep_well_formed_witness :
  let evs := [(mousedown, MouseEvent 10 10); (mousemove, MouseEvent 20 30);
              (mouseleave, MouseEvent 40 50); (mouseup, MouseEvent 40 50)] in
  run_ok evs eraserPad /\ well_formed (run evs eraserPad).
Proof.
  intros evs. apply (mouse_events_keep_well_formed evs eraserPad).
  - split; [| discriminate]. repeat constructor; do 2 eexists; reflexivity.
  - repeat constructor.
Defined.

(** ** Size, style and continuity of the interpolated stroke *)

Lemma flat_map_length_sum (A B : Type) (f : A -> list B) (l : list A) :
  List.length (flat_map f l) = list_sum (map (fun a => List.length (f a)) l).
Proof.
  induction l as [| a l IH]; [reflexivity |].
  simpl. now rewrite length_app, IH.
Qed.

Lemma list_sum_at_least (A : Type) (f : A -> nat) (l : list A) :
  (forall a, 1 <= f a)%nat -> (List.length l <= list_sum (map f l))%nat.
Proof.
  intros H. induction l as [| a l IH]; [reflexivity |].
  simpl. specialize (H a). lia.
Qed.

Lemma JS_interpolated_unmarked (A : JS.Arithmetic) (cw ch k : Q) (l : list arc) :
  Forall (fun p => is_skipped p = false) (flat_map (JS.arcOutput A cw ch k) l).
Proof.
  induction l as [| a l IH]; [constructor |].
  cbn [flat_map]. apply Forall_app. split; [| exact IH].
  eapply Forall_impl; [| apply JS_arcOutput_skipped].
  intros p Hp. unfold is_skipped. now rewrite Hp.
Qed.

(** X19. On a canvas of positive size and for a positive interval the
    interpolated stroke keeps the width, colour, cap, join and miter limit of
    the raw stroke and is flagged as interpolated, whatever the rounding of
    the arithmetic.  It holds one point more than the samples of its arcs,
    each arc giving [max(1, ceil(L / k))] of them for its chord [L] as the
    code computes it; that is never fewer points than the raw stroke had, and
    none of its points is marked. *)
Theorem interpolation_size_and_style
    (A : JS.Arithmetic) (cw ch k : Q)
    (stroke : Stroke.t) (p0 : PointI) (rest : list PointI) :
  0 < cw -> 0 < ch -> 0 < k ->
  Stroke.points_or_empty stroke = p0 :: rest ->
  exists new,
    JS.interpolateExistingShapePaths A cw ch stroke k = Ret new /\
    Stroke.width new = Stroke.width stroke /\
    Stroke.color new = Stroke.color stroke /\
    Stroke.cap new = Stroke.cap stroke /\
    Stroke.join new = Stroke.join stroke /\
    Stroke.miterLimit new = Stroke.miterLimit stroke /\
    Stroke.isInterpolationDone new = Some true /\
    point_count new =
      S (list_sum
           (map (fun a : arc =>
                   Z.to_nat
                     (Z.max 1
                        (Qceiling
                           (JS.div A
                              (JS.Math_hypot A
                                 (JS.sub A (px (arc_destination a)) (px (arc_origin a)))
                                 (JS.sub A (py (arc_destination a)) (py (arc_origin a))))
                              k))))
              (JS.arcs A (map (JS.toPixels A cw ch) (p0 :: rest))))) /\
    (List.length (p0 :: rest) <= point_count new)%nat /\
    Forall (fun p => is_skipped p = false) (Stroke.points_or_empty new).
Proof.
  intros _ _ _ Hp. eexists.
  split; [apply (JS_interpolate_closed_form A cw ch k stroke p0 rest Hp) |].
  do 6 (split; [reflexivity |]).
  set (count := fun a : arc => Z.to_nat (Z.max 1 _)).
  assert (Hlen : point_count
            (Stroke.mk
               (Some (xy (JS.div A (JS.mul A (px p0) cw) cw)
                         (JS.div A (JS.mul A (py p0) ch) ch) ::
                      flat_map (JS.arcOutput A cw ch k)
                        (JS.arcs A (map (JS.toPixels A cw ch) (p0 :: rest)))))
               (Stroke.width stroke) (Stroke.color stroke) (Stroke.cap stroke)
               (Stroke.join stroke) (Stroke.miterLimit stroke) (Some true)) =
          S (list_sum (map count (JS.arcs A (map (JS.toPixels A cw ch) (p0 :: rest)))))).
  { unfold point_count, Stroke.points_or_empty. cbn [Stroke.points List.length].
    rewrite flat_map_length_sum. f_equal. f_equal.
    apply map_ext. intros a. apply JS_arcOutput_length. }
  split; [exact Hlen |]. split.
  - rewrite Hlen.
    pose proof (list_sum_at_least arc count
                  (JS.arcs A (map (JS.toPixels A cw ch) (p0 :: rest)))) as H.
    rewrite JS_arcs_length, length_map in H. cbn [List.length] in *.
    assert (Hc : forall a, (1 <= count a)%nat) by (intros a; subst count; simpl; lia).
    specialize (H Hc). lia.
  - unfold Stroke.points_or_empty. cbn [Stroke.points].
    constructor; [reflexivity | apply JS_interpolated_unmarked].
Qed.

(** In doubles, the stroke from (0, 0) to the pixel (28, 0) of a canvas of
    100 pixels becomes a stroke of 9 points. *)
Lemma interpolation_size_and_style_witness :
  exists new,
    JS.interpolateExistingShapePaths JS.binary64 100 100 shortStroke 2 = Ret new /\
    Stroke.color new = Stroke.color shortStroke /\
    point_count new = 9%nat.
Proof.
  destruct (interpolation_size_and_style JS.binary64 100 100 2 shortStroke (Point 0 0)
              [Point (JS.div JS.binary64 28 100) 0] eq_refl eq_refl eq_refl eq_refl)
    as (new & H1 & _ & H2 & _ & _ & _ & _ & H3 & _).
  exists new. split; [exact H1 |]. split; [exact H2 |].
  rewrite H3. vm_compute. reflexivity.
Defined.

Lemma bezier_at_0 (o c d : Q) : bezier (0 / 1) o c d == o.
Proof. unfold bezier. field. Qed.




(** ** What is drawn before and after re-segmentation *)

Lemma lineCalls_are_lines (points : list PointI) (st : Sketchpad) :
  filter is_line_call (lineCalls points st) = lineCalls points st.
Proof.
  induction points as [| a [| b tl] IH]; try reflexivity.
  change (lineCalls (a :: b :: tl) st)
    with ((if negb (is_skipped a || is_skipped b)
           then [ctx_moveTo (px (normalizePoint a st)) (py (normalizePoint a st));
                 ctx_lineTo (px (normalizePoint b st)) (py (normalizePoint b st))]
           else []) ++ lineCalls (b :: tl) st).
  rewrite filter_app_list, IH.
  now destruct (negb (is_skipped a || is_skipped b)).
Qed.

Lemma styleCalls_no_lines (s : Stroke.t) (st : Sketchpad) :
  filter is_line_call (styleCalls s st) = [].
Proof.
  unfold styleCalls.
  destruct (truthy_string (Stroke.color s)), (truthy_number (Stroke.width s)),
    (Stroke.join s), (Stroke.cap s), (truthy_number (Stroke.miterLimit s));
    reflexivity.
Qed.

Lemma drawStroke_lines (s : Stroke.t) (st : Sketchpad) :
  filter is_line_call (drawStroke s st) = lineCalls (Stroke.points_or_empty s) st.
Proof.
  unfold drawStroke, Stroke.points_or_empty.
  destruct (Stroke.points s) as [ps |]; [| reflexivity].
  rewrite !filter_app_list, lineCalls_are_lines, styleCalls_no_lines.
  simpl. now rewrite app_nil_r.
Qed.

Lemma lineCalls_cons2 (a b : PointI) (tl : list PointI) (st : Sketchpad) :
  lineCalls (a :: b :: tl) st =
  (if negb (is_skipped a || is_skipped b)
   then [ctx_moveTo (px (normalizePoint a st)) (py (normalizePoint a st));
         ctx_lineTo (px (normalizePoint b st)) (py (normalizePoint b st))]
   else []) ++ lineCalls (b :: tl) st.
Proof. reflexivity. Qed.

(** A marked point cuts the line: nothing is drawn to it or from it. *)
Lemma lineCalls_cut (st : Sketchpad) (p : PointI) (r : list PointI) :
  is_skipped p = true ->
  forall l, lineCalls (l ++ p :: r) st = lineCalls l st ++ lineCalls r st.
Proof.
  intros Hp. induction l as [| a [| b l] IH].
  - destruct r as [| q r]; [reflexivity |].
    cbn [app]. rewrite lineCalls_cons2, Hp. reflexivity.
  - cbn [app]. rewrite lineCalls_cons2, Hp, orb_true_r. cbn [negb app].
    destruct r as [| q r]; [reflexivity |].
    rewrite lineCalls_cons2, Hp. reflexivity.
  - change ((a :: b :: l) ++ p :: r) with (a :: b :: (l ++ p :: r)).
    rewrite !lineCalls_cons2.
    change (b :: l ++ p :: r) with ((b :: l) ++ p :: r).
    rewrite IH. now rewrite app_assoc.
Qed.

Lemma lineCalls_resegment (st : Sketchpad) (proto : Stroke.t) (pts : list PointI) :
  forall cur, pts <> [] ->
  flat_map (fun f => lineCalls (Stroke.points_or_empty f) st)
    (resegment proto pts cur) =
  lineCalls (cur ++ pts) st.
Proof.
  induction pts as [| p rest IH]; intros cur Hne; [congruence |].
  rewrite resegment_cons. destruct (is_skipped p) eqn:Hp.
  - rewrite (lineCalls_cut st p rest Hp cur).
    destruct cur as [| c cur]; cbn [List.length Nat.ltb Nat.leb].
    + destruct rest as [| q rest]; [reflexivity |].
      now rewrite IH by discriminate.
    + cbn [flat_map]. unfold Stroke.points_or_empty at 1.
      cbn [Stroke.with_points Stroke.points]. f_equal.
      destruct rest as [| q rest]; [reflexivity |].
      now rewrite IH by discriminate.
  - destruct rest as [| q rest].
    + cbn [app flat_map resegment]. unfold Stroke.points_or_empty, push. simpl.
      now rewrite app_nil_r.
    + cbn [app]. rewrite IH by discriminate. unfold push.
      now rewrite <- app_assoc.
Qed.

Lemma fragments_lines (s : Stroke.t) (st : Sketchpad) :
  flat_map (fun f => lineCalls (Stroke.points_or_empty f) st) (fragments s) =
  lineCalls (Stroke.points_or_empty s) st.
Proof.
  unfold fragments. destruct (Stroke.points_or_empty s) as [| p ps] eqn:E.
  - reflexivity.
  - now rewrite lineCalls_resegment by discriminate.
Qed.

Lemma styleCalls_same_style (f s : Stroke.t) (st : Sketchpad) :
  same_style f s -> styleCalls f st = styleCalls s st.
Proof.
  intros (H1 & H2 & H3 & H4 & H5 & _). unfold styleCalls.
  now rewrite H1, H2, H3, H4, H5.
Qed.

Lemma drawAll_plain (l : list Stroke.t) (st : Sketchpad) :
  negb (isEraserActive st) && sketching st = false ->
  drawAll l st = (flat_map (fun s => drawStroke s st) l, Ret tt).
Proof.
  intros H. induction l as [| s [| s' tl] IH]; [reflexivity | |].
  - cbn [drawAll flat_map]. rewrite H. now rewrite app_nil_r.
  - change (drawAll (s :: s' :: tl) st)
      with (let (calls, o) := drawAll (s' :: tl) st in (drawStroke s st ++ calls, o)).
    rewrite IH. reflexivity.
Qed.

Lemma filter_flat_map (A B : Type) (p : B -> bool) (f : A -> list B) (l : list A) :
  filter p (flat_map f l) = flat_map (fun a => filter p (f a)) l.
Proof.
  induction l as [| a l IH]; [reflexivity |].
  cbn [flat_map]. now rewrite filter_app_list, IH.
Qed.

Lemma flat_map_flat_map (A B C : Type) (f : A -> list B) (g : B -> list C)
    (l : list A) :
  flat_map g (flat_map f l) = flat_map (fun a => flat_map g (f a)) l.
Proof.
  induction l as [| a l IH]; [reflexivity |].
  cbn [flat_map]. now rewrite flat_map_app, IH.
Qed.

Lemma lineCalls_set_strokes (points : list PointI) (l : list Stroke.t)
    (st : Sketchpad) :
  lineCalls points (set_strokes l st) = lineCalls points st.
Proof.
  induction points as [| a [| b tl] IH]; try reflexivity.
  rewrite !lineCalls_cons2, IH. reflexivity.
Qed.

Lemma drawStroke_set_strokes (s : Stroke.t) (l : list Stroke.t) (st : Sketchpad) :
  drawStroke s (set_strokes l st) = drawStroke s st.
Proof.
  unfold drawStroke. destruct (Stroke.points s); [| reflexivity].
  now rewrite lineCalls_set_strokes.
Qed.

Lemma lineCalls_no_closePath (points : list PointI) (st : Sketchpad) :
  filter is_closePath (lineCalls points st) = [].
Proof.
  induction points as [| a [| b tl] IH]; try reflexivity.
  rewrite lineCalls_cons2, filter_app_list, IH.
  now destruct (negb (is_skipped a || is_skipped b)).
Qed.

Lemma styleCalls_no_closePath (s : Stroke.t) (st : Sketchpad) :
  filter is_closePath (styleCalls s st) = [].
Proof.
  unfold styleCalls.
  destruct (truthy_string (Stroke.color s)), (truthy_number (Stroke.width s)),
    (Stroke.join s), (Stroke.cap s), (truthy_number (Stroke.miterLimit s));
    reflexivity.
Qed.

Lemma drawStroke_closePath (s : Stroke.t) (st : Sketchpad) :
  has_points s -> filter is_closePath (drawStroke s st) = [ctx_closePath].
Proof.
  unfold has_points, drawStroke. destruct (Stroke.points s) as [ps |]; [| congruence].
  intros _. rewrite !filter_app_list, lineCalls_no_closePath, styleCalls_no_closePath.
  reflexivity.
Qed.

Lemma fragments_closePath (st : Sketchpad) (l : list Stroke.t) :
  Forall has_points l ->
  List.length (filter is_closePath (flat_map (fun f => drawStroke f st) l)) =
  List.length l.
Proof.
  induction 1 as [| f l Hf _ IH]; [reflexivity |].
  cbn [flat_map]. rewrite filter_app_list, length_app, IH.
  now rewrite (drawStroke_closePath f st Hf).
Qed.

(** X21. Re-segmentation keeps the line segments that are drawn, and not the
    paths.  The fragments of a stroke are drawn with the [moveTo] and [lineTo]
    calls of the stroke itself, in the same order, a segment being drawn
    exactly between two neighbouring unmarked points, and with the same style
    settings; and outside a live drawing gesture [redraw] issues the same
    [moveTo] and [lineTo] calls before and after
    [createNewStrokesAfterErasing].  But every fragment is drawn as a path of
    its own: a stroke with a point array, which made one [closePath] call,
    makes as many as it has fragments. *)
Theorem resegmentation_keeps_picture (st : Sketchpad) :
  (forall s,
     filter is_line_call (flat_map (fun f => drawStroke f st) (fragments s)) =
       filter is_line_call (drawStroke s st) /\
     Forall (fun f => styleCalls f st = styleCalls s st) (fragments s)) /\
  (negb (isEraserActive st) && sketching st = false ->
   snd (redraw st) = Ret tt /\
   snd (redraw (createNewStrokesAfterErasing st)) = Ret tt /\
   filter is_line_call (fst (redraw (createNewStrokesAfterErasing st))) =
     filter is_line_call (fst (redraw st))) /\
  (forall s, has_points s ->
     filter is_closePath (drawStroke s st) = [ctx_closePath] /\
     List.length
       (filter is_closePath (flat_map (fun f => drawStroke f st) (fragments s))) =
     List.length (fragments s)).
Proof.
  assert (Hs : forall s,
            filter is_line_call (flat_map (fun f => drawStroke f st) (fragments s)) =
            filter is_line_call (drawStroke s st)).
  { intros s. rewrite filter_flat_map, drawStroke_lines, <- fragments_lines.
    apply flat_map_ext. intros f. apply drawStroke_lines. }
  split; [| split].
  - intros s. split; [apply Hs |].
    eapply Forall_impl; [| apply fragments_style].
    intros f Hf. now apply styleCalls_same_style.
  - intros Hmode. unfold redraw.
    rewrite (drawAll_plain (_strokes st) st Hmode).
    rewrite (drawAll_plain (_strokes (createNewStrokesAfterErasing st))
               (createNewStrokesAfterErasing st) Hmode).
    cbn [fst snd]. split; [reflexivity |]. split; [reflexivity |].
    rewrite createNewStrokesAfterErasing_strokes.
    rewrite !filter_app_list. f_equal.
    rewrite (flat_map_ext _ (fun s => drawStroke s st))
      by (intros s; apply drawStroke_set_strokes).
    rewrite flat_map_flat_map, !filter_flat_map.
    apply flat_map_ext. intros s. apply Hs.
  - intros s Hp. split; [now apply drawStroke_closePath |].
    apply fragments_closePath.
    eapply Forall_impl; [| apply fragments_clean].
    intros f (ps & Hf & _). unfold has_points. congruence.
Qed.

(** A stroke of five points whose third point is marked: the same segments
    are drawn after re-segmentation, in two paths where there was one. *)
Lemma resegmentation_keeps_picture_witness :
  let st := fst (startStrokeHandler (MouseEvent 50 50)
                   (set_strokes [sampleStroke fivePoints] eraserPad)) in
  let st := set_sketching false st in
  filter is_line_call (fst (redraw (createNewStrokesAfterErasing st))) =
    filter is_line_call (fst (redraw st)) /\
  List.length (filter is_closePath (fst (redraw st))) = 1%nat /\
  List.length (filter is_closePath (fst (redraw (createNewStrokesAfterErasing st)))) =
    2%nat.
Proof.
  intros st0 st. split; [| split; reflexivity].
  exact (proj2 (proj2 (proj1 (proj2 (resegmentation_keeps_picture st)) eq_refl))).
Defined.

(** ** [drawLine] among the other operations *)

(** X24. [drawLine] consults neither the read-only flag nor the state of a
    gesture: on any pad it appends exactly one stroke, of the two end points
    in normalized coordinates, not flagged as interpolated unless the pad's
    default says so.  An [undo] right after it gives back the stroke list as
    it was, but not the default style, which stays as [drawLine] set it. *)
Theorem drawLine_appends_and_undo_keeps_style
    (st : Sketchpad) (a b : PointI) (lo : LineOptionsI.t) :
  let st' := drawLine a b lo st in
  (exists line,
     _strokes st' = _strokes st ++ [line] /\
     Stroke.points line =
       Some [mkPoint (px a / canvas_width st) (py a / canvas_height st) (Some false);
             mkPoint (px b / canvas_width st) (py b / canvas_height st) (Some false)] /\
     Stroke.isInterpolationDone line = Some (isInterpolationDone st') /\
     undoneStrokes (undo st') = undoneStrokes st ++ [line]) /\
  readOnly st' = readOnly st /\
  sketching st' = sketching st /\
  isEraserActive st' = isEraserActive st /\
  _strokes (undo st') = _strokes st /\
  lineWidth (undo st') = lineWidth st' /\
  lineCap (undo st') = lineCap st' /\
  lineJoin (undo st') = lineJoin st' /\
  lineMiterLimit (undo st') = lineMiterLimit st'.
Proof.
  intros st'. subst st'. unfold drawLine. rewrite setOptions_of_line.
  unfold pushStroke. cbn [_strokes set_strokes].
  match goal with
  | |- context [set_strokes (push ?l ?s) ?x] =>
      pose proof (undo_push (set_strokes (push l s) x) l s eq_refl) as Hu
  end.
  rewrite Hu. split; [| repeat split].
  eexists. repeat split.
Qed.
